(** * save_ipv6_channels: parse, filter, deduplicate and write a channel list

    A shallow embedding of [save_ipv6_channels.py].  Python text is a
    sequence of Unicode code points, so a character is a code point ([N])
    and a string is a list of them.  An insertion-ordered [dict] with string
    keys is an association list whose keys are pairwise distinct; a
    [defaultdict(list)] is the same list with the append-or-create accessor
    [Dict.append].  A file that is read is its decoded text.  A file that is
    written goes through the UTF-8 encoder, which refuses a lone surrogate:
    [f.write] then raises [UnicodeEncodeError] and the file keeps the text of
    the calls before it. *)

From Stdlib Require Import List NArith Bool Arith Lia String Ascii.
Import ListNotations.

Local Open Scope N_scope.
Local Open Scope list_scope.

(** ** Text *)

Module Text.

Definition char := N.
Definition str := list char.

(** String literals of the source, as code points. *)
Definition lit (s : string) : str := map N_of_ascii (list_ascii_of_string s).

Definition LF : char := 10.
Definition CR : char := 13.
Definition COMMA : char := 44.

Fixpoint str_eqb (a b : str) : bool :=
  match a, b with
  | [], [] => true
  | x :: a', y :: b' => (x =? y) && str_eqb a' b'
  | _, _ => false
  end.

(** [str.isspace] on one code point (CPython's [_PyUnicode_IsWhitespace]):
    the characters that [str.strip()] removes. *)
Definition is_space (c : char) : bool :=
  ((9 <=? c) && (c <=? 13)) || ((28 <=? c) && (c <=? 32))
  || (c =? 133) || (c =? 160) || (c =? 5760)
  || ((8192 <=? c) && (c <=? 8202))
  || (c =? 8232) || (c =? 8233) || (c =? 8239) || (c =? 8287)
  || (c =? 12288).

Fixpoint lstrip (s : str) : str :=
  match s with
  | [] => []
  | c :: t => if is_space c then lstrip t else s
  end.

Definition rstrip (s : str) : str := rev (lstrip (rev s)).

(** [s.strip()] *)
Definition strip (s : str) : str := rstrip (lstrip s).

(** The code point can be encoded as UTF-8: it is a Unicode scalar value,
    not a surrogate (U+D800 to U+DFFF).  Numbers above U+10FFFF are no
    characters of a Python string and count as not encodable. *)
Definition encodable (c : char) : bool :=
  (c <? 55296) || ((57343 <? c) && (c <=? 1114111)).

(** [s.encode('utf-8')] does not raise. *)
Definition encodable_str (s : str) : bool := forallb encodable s.

(** [s.startswith(p)] *)
Fixpoint startswith (p s : str) : bool :=
  match p, s with
  | [], _ => true
  | x :: p', y :: s' => (x =? y) && startswith p' s'
  | _ :: _, [] => false
  end.

(** [s.endswith(p)] *)
Definition endswith (p s : str) : bool := startswith (rev p) (rev s).

(** [s.replace(old, '')] for a non-empty [old]: scan from the left; where
    [old] starts, drop it whole and go on after it.  [skip] counts the
    characters of a found occurrence still to drop. *)
Fixpoint remove_all_from (old : str) (skip : nat) (s : str) : str :=
  match s with
  | [] => []
  | c :: t =>
      match skip with
      | S k => remove_all_from old k t
      | O => if startswith old s
             then remove_all_from old (pred (List.length old)) t
             else c :: remove_all_from old 0 t
      end
  end.

Definition remove_all (old s : str) : str := remove_all_from old 0 s.

(** [sep in s] for a one-character [sep] *)
Definition contains_char (sep : char) (s : str) : bool :=
  existsb (N.eqb sep) s.

(** The two halves of [s] around its first [sep], when there is one. *)
Fixpoint cut_first (sep : char) (s : str) : option (str * str) :=
  match s with
  | [] => None
  | c :: t =>
      if c =? sep then Some ([], t)
      else match cut_first sep t with
           | Some (a, b) => Some (c :: a, b)
           | None => None
           end
  end.

(** [s.split(sep, 1)] *)
Definition split1 (sep : char) (s : str) : list str :=
  match cut_first sep s with
  | Some (a, b) => [a; b]
  | None => [s]
  end.

(** Universal-newlines translation of a text file opened for reading with
    [newline=None]: each of "\r\n", "\r" and "\n" ends a line and reaches
    the program as "\n". *)
Fixpoint translate_newlines (s : str) : str :=
  match s with
  | [] => []
  | c :: t =>
      if c =? CR then
        match t with
        | c2 :: t' => if c2 =? LF then LF :: translate_newlines t'
                      else LF :: translate_newlines t
        | [] => [LF]
        end
      else c :: translate_newlines t
  end.

(** The lines of translated text, each with its terminator; a last line
    without terminator is a line when it is not empty. *)
Fixpoint lines_from (cur : str) (s : str) : list str :=
  match s with
  | [] => match cur with [] => [] | _ => [cur] end
  | c :: t =>
      if c =? LF then (cur ++ [LF]) :: lines_from [] t
      else lines_from (cur ++ [c]) t
  end.

(** [for line in f] *)
Definition file_lines (content : str) : list str :=
  lines_from [] (translate_newlines content).

End Text.
Import Text.

(** ** Ordered dictionaries with string keys *)

Module Dict.

Section Ops.
Context {V : Type}.

Definition dict := list (str * V).

Definition keys (d : dict) : list str := map fst d.

Fixpoint get (d : dict) (k : str) : option V :=
  match d with
  | [] => None
  | (k', v) :: t => if str_eqb k' k then Some v else get t k
  end.

(** [d[k] = v]: in place when the key is there, a new last entry otherwise. *)
Fixpoint set (d : dict) (k : str) (v : V) : dict :=
  match d with
  | [] => [(k, v)]
  | (k', v') :: t =>
      if str_eqb k' k then (k', v) :: t else (k', v') :: set t k v
  end.

End Ops.
Arguments dict : clear implicits.

(** [d[k].append(x)] on a [defaultdict(list)] *)
Definition append {A : Type} (d : dict (list A)) (k : str) (x : A)
  : dict (list A) :=
  match get d k with
  | Some l => set d k (l ++ [x])
  | None => set d k ([] ++ [x])
  end.

End Dict.

(** ** Regular expressions, as far as the patterns of [is_ipv6_url] go *)

Module Re.

Inductive regex : Type :=
| Never
| Eps
| Chr (c : char)
| Class (ranges : list (char * char))
| Seq (r1 r2 : regex)
| Alt (r1 r2 : regex)
| Star (r : regex).

(** [r+] *)
Definition Plus (r : regex) : regex := Seq r (Star r).

(** A pattern made of ordinary characters only. *)
Fixpoint Lit (s : str) : regex :=
  match s with
  | [] => Eps
  | c :: t => Seq (Chr c) (Lit t)
  end.

Definition in_class (ranges : list (char * char)) (c : char) : bool :=
  existsb (fun r => (fst r <=? c) && (c <=? snd r)) ranges.

Fixpoint nullable (r : regex) : bool :=
  match r with
  | Never => false
  | Eps => true
  | Chr _ => false
  | Class _ => false
  | Seq a b => nullable a && nullable b
  | Alt a b => nullable a || nullable b
  | Star _ => true
  end.

Fixpoint deriv (c : char) (r : regex) : regex :=
  match r with
  | Never => Never
  | Eps => Never
  | Chr x => if x =? c then Eps else Never
  | Class rs => if in_class rs c then Eps else Never
  | Seq a b =>
      if nullable a then Alt (Seq (deriv c a) b) (deriv c b)
      else Seq (deriv c a) b
  | Alt a b => Alt (deriv c a) (deriv c b)
  | Star a => Seq (deriv c a) (Star a)
  end.

(** [re.match(r, s) is not None]: some prefix of [s] matches. *)
Fixpoint match_here (r : regex) (s : str) : bool :=
  nullable r ||
  match s with
  | [] => false
  | c :: t => match_here (deriv c r) t
  end.

(** [re.search(r, s) is not None]: a match starts somewhere in [s]. *)
Fixpoint search (r : regex) (s : str) : bool :=
  match_here r s ||
  match s with
  | [] => false
  | _ :: t => search r t
  end.

End Re.

(** ** The program *)

Record Channel : Type := mkChannel { name : str; url : str }.

(** category -> channels, in insertion order *)
Definition Catalog := Dict.dict (list Channel).

Definition GENRE : str := lit ",#genre#".

(** What the program prints, one constructor per [print]. *)
Inductive Notice : Type :=
| ResultFileNotFound
| ReadingResultFile
| NoChannelsFound
| FoundTotal (total categories : nat)
| FilteringIPv6
| NoIPv6Found
| FoundIPv6 (total : nat)
| RemovingDuplicates
| AfterDeduplication (total : nat)
| Saving
| SummaryHeader
| SummaryLine (category : str) (count : nat)
| SavedTo.

(** *** read_result_file *)

(** The body of the loop over the lines: the state is [channels] and
    [current_category]. *)
Definition parse_line (st : Catalog * str) (raw : str) : Catalog * str :=
  let '(channels, current_category) := st in
  let line := strip raw in
  match line with
  | [] => st
  | _ :: _ =>
      if endswith GENRE line then (channels, remove_all GENRE line)
      else if contains_char COMMA line then
        match split1 COMMA line with
        | [n; u] =>
            (Dict.append channels current_category (mkChannel n u),
             current_category)
        | _ => st
        end
      else st
  end.

Definition parse_lines (ls : list str) : Catalog * str :=
  fold_left parse_line ls ([], []).

(** The file is [None] when the path does not exist. *)
Definition read_result_file (file : option str) : list Notice * Catalog :=
  match file with
  | None => ([ResultFileNotFound], [])
  | Some content => ([], fst (parse_lines (file_lines content)))
  end.

(** *** is_ipv6_url *)

Definition chr (a : ascii) : char := N_of_ascii a.

Definition hex_colon : list (char * char) :=
  [(chr "0", chr "9"); (chr "a", chr "f"); (chr "A", chr "F");
   (chr ":", chr ":")].

Definition ipv6_patterns : list Re.regex :=
  [ Re.Seq (Re.Chr (chr "["))
      (Re.Seq (Re.Plus (Re.Class hex_colon)) (Re.Chr (chr "]")));
    Re.Lit (lit "2409:8087:");
    Re.Lit (lit "2001:");
    Re.Lit (lit "::1");
    Re.Lit (lit "fe80:") ].

Fixpoint any_pattern (patterns : list Re.regex) (u : str) : bool :=
  match patterns with
  | [] => false
  | pattern :: rest =>
      if Re.search pattern u then true else any_pattern rest u
  end.

Definition is_ipv6_url (u : str) : bool := any_pattern ipv6_patterns u.

(** *** filter_ipv6_channels *)

Definition filter_channel (category : str) (acc : Catalog) (channel : Channel)
  : Catalog :=
  if is_ipv6_url (url channel) then Dict.append acc category channel else acc.

Definition filter_category (acc : Catalog) (entry : str * list Channel)
  : Catalog :=
  fold_left (filter_channel (fst entry)) (snd entry) acc.

Definition filter_ipv6_channels (channels : Catalog) : Catalog :=
  fold_left filter_category channels [].

(** *** save_channels_to_file *)

(** How the [with open(file_path, 'w', encoding='utf-8')] block ends: the
    file holds [text] and the function returns, or a [f.write] raised
    [UnicodeEncodeError] and the file is left with [partial], the text of the
    calls before it. *)
Inductive write_result : Type :=
| Written (text : str)
| EncodeError (partial : str).

(** [f.write(s)] after the text [out]: the call's text is encoded whole or
    not at all. *)
Definition f_write (out s : str) : str + str :=
  if encodable_str s then inl (out ++ s) else inr out.

(** A loop whose body can raise: the first raise ends it. *)
Fixpoint try_fold {S A : Type} (body : S -> A -> S + str) (l : list A)
         (s : S) : S + str :=
  match l with
  | [] => inl s
  | x :: rest =>
      match body s x with
      | inl s' => try_fold body rest s'
      | inr partial => inr partial
      end
  end.

Definition write_channel (out : str) (channel : Channel) : str + str :=
  f_write out (name channel ++ [COMMA] ++ url channel ++ [LF]).

(** The body of the loop over the categories: the state is the text written
    so far and [first_category]. *)
Definition write_category (st : str * bool) (entry : str * list Channel)
  : (str * bool) + str :=
  let '(out, first_category) := st in
  let '(category, channel_list) := entry in
  match channel_list with
  | [] => inl st
  | _ :: _ =>
      match (if first_category then inl out else f_write out [LF]) with
      | inr partial => inr partial
      | inl out1 =>
          match f_write out1 (category ++ GENRE ++ [LF]) with
          | inr partial => inr partial
          | inl out2 =>
              match try_fold write_channel channel_list out2 with
              | inr partial => inr partial
              | inl out3 => inl (out3, false)
              end
          end
      end
  end.

Definition save_channels_to_file (channels : Catalog) : write_result :=
  match try_fold write_category channels ([], true) with
  | inl (out, _) => Written out
  | inr partial => EncodeError partial
  end.

(** *** remove_duplicates_keep_best *)

Definition keep_best (seen_names : Dict.dict Channel) (channel : Channel)
  : Dict.dict Channel :=
  match Dict.get seen_names (name channel) with
  | None => Dict.set seen_names (name channel) channel
  | Some existing =>
      if (List.length (url channel) <? List.length (url existing))%nat
      then Dict.set seen_names (name channel) channel
      else seen_names
  end.

(** [list(seen_names.values())] after the inner loop *)
Definition best_of (channel_list : list Channel) : list Channel :=
  map snd (fold_left keep_best channel_list []).

Definition dedup_category (deduplicated : Catalog) (entry : str * list Channel)
  : Catalog :=
  Dict.set deduplicated (fst entry) (best_of (snd entry)).

Definition remove_duplicates_keep_best (channels : Catalog) : Catalog :=
  fold_left dedup_category channels [].

(** *** main *)

Definition total_channels (c : Catalog) : nat :=
  list_sum (map (fun e => List.length (snd e)) c).

Definition summary (c : Catalog) : list Notice :=
  flat_map (fun e => match snd e with
                     | [] => []
                     | _ :: _ => [SummaryLine (fst e) (List.length (snd e))]
                     end) c.

(** [written] is the text put at 'output/ipv6_channels.txt' by a save that
    returned; [failed] is the text left there by a save that raised
    [UnicodeEncodeError], which ends the run. *)
Record Run : Type :=
  mkRun { console : list Notice; written : option str; failed : option str }.

(** [result_file] is the text at 'output/result.txt' ([None]: no such
    file). *)
Definition main (result_file : option str) : Run :=
  let '(notes, channels) := read_result_file result_file in
  let log := ReadingResultFile :: notes in
  match channels with
  | [] => mkRun (log ++ [NoChannelsFound]) None None
  | _ :: _ =>
      let log :=
        log ++ [FoundTotal (total_channels channels) (List.length channels);
                FilteringIPv6] in
      match filter_ipv6_channels channels with
      | [] => mkRun (log ++ [NoIPv6Found]) None None
      | (_ :: _) as ipv6_channels =>
          let final_channels := remove_duplicates_keep_best ipv6_channels in
          let log :=
            log ++ [FoundIPv6 (total_channels ipv6_channels);
                    RemovingDuplicates;
                    AfterDeduplication (total_channels final_channels);
                    Saving] in
          match save_channels_to_file final_channels with
          | Written text =>
              mkRun (log ++ [SummaryHeader]
                         ++ summary final_channels ++ [SavedTo])
                    (Some text) None
          | EncodeError partial => mkRun log None (Some partial)
          end
      end
  end.

(** ** Vocabulary of the properties *)

(** *** Strings *)

(** [p] is a substring of [s]. *)
Definition occurs (p s : str) : Prop := exists pre post, s = pre ++ p ++ post.

Fixpoint occursb (p s : str) : bool :=
  startswith p s ||
  match s with
  | [] => false
  | _ :: t => occursb p t
  end.

Definition all_space (s : str) : Prop := Forall (fun c => is_space c = true) s.

Definition no_leading_space (s : str) : Prop :=
  forall c t, s = c :: t -> is_space c = false.

Definition no_trailing_space (s : str) : Prop :=
  forall c t, s = t ++ [c] -> is_space c = false.

Definition is_linebreak (c : char) : bool := (c =? LF) || (c =? CR).

Definition one_line (s : str) : bool := forallb (fun c => negb (is_linebreak c)) s.

(** *** Regular expressions: the language of a pattern *)

Inductive Matches : Re.regex -> str -> Prop :=
| MEps : Matches Re.Eps []
| MChr c : Matches (Re.Chr c) [c]
| MClass rs c : Re.in_class rs c = true -> Matches (Re.Class rs) [c]
| MSeq a b s t : Matches a s -> Matches b t -> Matches (Re.Seq a b) (s ++ t)
| MAltL a b s : Matches a s -> Matches (Re.Alt a b) s
| MAltR a b s : Matches b s -> Matches (Re.Alt a b) s
| MStar0 a : Matches (Re.Star a) []
| MStarS a s t :
    Matches a s -> Matches (Re.Star a) t -> Matches (Re.Star a) (s ++ t).

(** *** The five rules of the classifier *)

Definition is_hex_colon (c : char) : Prop :=
  (chr "0" <= c <= chr "9") \/ (chr "a" <= c <= chr "f")
  \/ (chr "A" <= c <= chr "F") \/ c = chr ":".

(** A non-empty run of hex digits and colons enclosed in square brackets. *)
Definition bracketed_run (u : str) : Prop :=
  exists pre run post,
    u = pre ++ [chr "["] ++ run ++ [chr "]"] ++ post
    /\ run <> [] /\ Forall is_hex_colon run.

Definition five_rules (u : str) : Prop :=
  bracketed_run u
  \/ occurs (lit "2409:8087:") u
  \/ occurs (lit "2001:") u
  \/ occurs (lit "::1") u
  \/ occurs (lit "fe80:") u.

(** *** The text layout *)

Definition header_line (category : str) : str := category ++ GENRE.

Definition channel_line (ch : Channel) : str := name ch ++ [COMMA] ++ url ch.

(** A category's header line and its channels' lines, each terminated. *)
Definition block (e : str * list Channel) : str :=
  header_line (fst e) ++ [LF]
  ++ flat_map (fun ch => channel_line ch ++ [LF]) (snd e).

(** Blocks with one blank line between neighbours. *)
Fixpoint join_blank (blocks : list str) : str :=
  match blocks with
  | [] => []
  | [b] => b
  | b :: rest => b ++ [LF] ++ join_blank rest
  end.

Definition has_channels (e : str * list Channel) : bool :=
  match snd e with [] => false | _ :: _ => true end.

(** The layout as the specification words it. *)
Definition layout (c : Catalog) : str :=
  join_blank (map block (filter has_channels c)).

(** The catalog without category [k]. *)
Definition without (k : str) (c : Catalog) : Catalog :=
  filter (fun e => negb (str_eqb (fst e) k)) c.

(** *** Deduplication *)

(** The distinct elements of [l], each at its first occurrence. *)
Fixpoint first_occurrences (l : list str) : list str :=
  match l with
  | [] => []
  | x :: t => x :: filter (fun y => negb (str_eqb x y)) (first_occurrences t)
  end.

(** [ch] at its place in [l] beats every same-named channel of [l]: strictly
    shorter than those before it, not longer than those after it. *)
Definition wins_in (ch : Channel) (l : list Channel) : Prop :=
  exists before after,
    l = before ++ ch :: after
    /\ (forall c, In c before -> name c = name ch ->
          (List.length (url ch) < List.length (url c))%nat)
    /\ (forall c, In c after -> name c = name ch ->
          (List.length (url ch) <= List.length (url c))%nat).

(** *** The parser's view of the input *)

Definition chans_of (c : Catalog) (k : str) : list Channel :=
  match Dict.get c k with Some l => l | None => [] end.

(** The catalog read from a file's text. *)
Definition parse (content : str) : Catalog :=
  snd (read_result_file (Some content)).

(** The label of a marker line, by the claim's words: the stripped line
    without its trailing marker. *)
Definition label_of (line : str) : str :=
  firstn (List.length line - List.length GENRE) line.

(** The channel lines of the input, each with the label of the nearest
    marker line above it ([cur] when there is none). *)
Fixpoint tagged (cur : str) (ls : list str) : list (str * Channel) :=
  match ls with
  | [] => []
  | raw :: rest =>
      let line := strip raw in
      match line with
      | [] => tagged cur rest
      | _ :: _ =>
          if endswith GENRE line then tagged (remove_all GENRE line) rest
          else match cut_first COMMA line with
               | Some (n, u) => (cur, mkChannel n u) :: tagged cur rest
               | None => tagged cur rest
               end
      end
  end.

(** The labels of the marker lines, in input order, after the implicit
    empty-string category. *)
Fixpoint marker_labels (ls : list str) : list str :=
  match ls with
  | [] => []
  | raw :: rest =>
      if endswith GENRE (strip raw)
      then remove_all GENRE (strip raw) :: marker_labels rest
      else marker_labels rest
  end.

Definition under (k : str) (t : list (str * Channel)) : list Channel :=
  map snd (filter (fun p => str_eqb (fst p) k) t).

(** Entries grouped by label, labels in the order of their first entry. *)
Definition grouped (t : list (str * Channel)) : Catalog :=
  map (fun k => (k, under k t)) (first_occurrences (map fst t)).

(** Catalog keys in the order in which the labels first appear as marker
    lines, the reading of the claim on the position of a merged entry. *)
Definition keys_by_first_marker (c : Catalog) (ls : list str) : list str :=
  filter (fun k => existsb (str_eqb k) (Dict.keys c))
         (first_occurrences ([] :: marker_labels ls)).

(** *** Catalogs that survive a write and a read *)

Definition no_empty_category (c : Catalog) : Prop :=
  Forall (fun e => snd e <> []) c.

(** No name and no URL holds a line break. *)
Definition no_embedded_newline (c : Catalog) : Prop :=
  Forall (fun e => Forall (fun ch => one_line (name ch) = true
                                     /\ one_line (url ch) = true) (snd e)) c.

Definition plain_channel (ch : Channel) : Prop :=
  one_line (name ch) = true /\ one_line (url ch) = true
  /\ contains_char COMMA (name ch) = false
  /\ no_leading_space (name ch) /\ no_trailing_space (url ch)
  /\ endswith GENRE (channel_line ch) = false.

Definition plain_category (k : str) : Prop :=
  one_line k = true /\ no_leading_space k /\ occursb GENRE k = false.

(** No label, name or URL holds a code point that UTF-8 cannot encode. *)
Definition encodable_catalog (c : Catalog) : Prop :=
  Forall (fun e => encodable_str (fst e) = true
                   /\ Forall (fun ch => encodable_str (name ch) = true
                                        /\ encodable_str (url ch) = true)
                             (snd e)) c.

Definition plain_catalog (c : Catalog) : Prop :=
  NoDup (Dict.keys c)
  /\ Forall (fun e => plain_category (fst e) /\ snd e <> []
                      /\ Forall plain_channel (snd e)) c
  /\ encodable_catalog c.

(** The catalog is written and the text read gives it back. *)
Definition reads_back (c : Catalog) : Prop :=
  exists text, save_channels_to_file c = Written text /\ parse text = c.

(** *** The outcome of a sequence of [f.write] calls *)

(** [r] is what writing the text [T] call by call after [out] gives: all
    of it, or, when some call's text cannot be encoded, the calls before
    that one. *)
Definition wrote (out T : str) (r : str + str) : Prop :=
  match r with
  | inl o => o = out ++ T /\ encodable_str T = true
  | inr p => encodable_str T = false
             /\ exists q rest, p = out ++ q /\ T = q ++ rest
  end.

Definition strip_flag (r : (str * bool) + str) : str + str :=
  match r with
  | inl (o, _) => inl o
  | inr p => inr p
  end.

(** A catalog with a lone surrogate as a channel name. *)
Definition lone_surrogate_catalog : Catalog :=
  [(lit "News", [mkChannel (lit "CCTV1") (lit "http://a/1");
                 mkChannel [55296] (lit "http://a/2")])].

(** *** Invariants of the loops *)

(** [seen_names] after the channels [p] of a category have been visited. *)
Definition seen_ok (seen : Dict.dict Channel) (p : list Channel) : Prop :=
  Dict.keys seen = first_occurrences (map name p)
  /\ Forall (fun e => name (snd e) = fst e /\ wins_in (snd e) p) seen.

(** A catalog on which deduplication has nothing left to do. *)
Definition settled (d : Catalog) : Prop :=
  NoDup (Dict.keys d) /\ Forall (fun e => best_of (snd e) = snd e) d.

Definition dedup_entry (e : str * list Channel) : str * list Channel :=
  (fst e, best_of (snd e)).

(** Blocks, each after a blank line. *)
Definition blank_before (blocks : list str) : str :=
  flat_map (fun b => LF :: b) blocks.

Definition blocks_of (c : Catalog) : list str :=
  map block (filter has_channels c).

(** Every channel filed under [k] in [c] fails the IPv6 predicate. *)
Definition all_fail (k : str) (c : Catalog) : Prop :=
  forall l ch, In (k, l) c -> In ch l -> is_ipv6_url (url ch) = false.

(** *** Sample data *)

Definition cctv1_long : Channel :=
  mkChannel (lit "CCTV1") (lit "http://a.com/longpath/stream").

Definition cctv1_short : Channel :=
  mkChannel (lit "CCTV1") (lit "http://b.co/s").

(** The input of the end-to-end scenario. *)
Definition scenario_input : str :=
  lit "News,#genre#" ++ [LF]
  ++ lit "CCTV1,http://192.168.1.1/live" ++ [LF]
  ++ lit "CCTV1,http://[2409:8087:1001::5]/live" ++ [LF]
  ++ lit "Sports,#genre#" ++ [LF]
  ++ lit "ESPN,http://10.0.0.1/live" ++ [LF].

Definition scenario_output : str :=
  lit "News,#genre#" ++ [LF]
  ++ lit "CCTV1,http://[2409:8087:1001::5]/live" ++ [LF].

(** The channels of a catalog in catalog order, each with its category. *)
Definition flat (c : Catalog) : list (str * Channel) :=
  flat_map (fun e => map (pair (fst e)) (snd e)) c.

(** An input in which the label "A" first appears above "B" but gets its
    first channel below. *)
Definition late_block_input : str :=
  lit "A,#genre#" ++ [LF]
  ++ lit "B,#genre#" ++ [LF]
  ++ lit "b1,http://b/1" ++ [LF]
  ++ lit "A,#genre#" ++ [LF]
  ++ lit "a1,http://a/1" ++ [LF].

(** A marker line whose label holds the marker. *)
Definition nested_marker_line : str := lit "News,#genre#HD,#genre#".

(** A catalog with a comma in a channel name. *)
Definition comma_name_catalog : Catalog :=
  [(lit "News", [mkChannel (lit "CCTV,1") (lit "http://a/1")])].

Definition two_block_catalog : Catalog :=
  [(lit "News", [mkChannel (lit "CCTV1") (lit "http://[2001:db8::1]/a,b");
                 mkChannel (lit "CCTV 2") (lit "http://a/2")]);
   (lit "", [mkChannel (lit "") (lit "")])].

(** A file in which every URL is an IPv4 one. *)
Definition ipv4_only_input : str :=
  lit "News,#genre#" ++ [LF] ++ lit "CCTV1,http://192.168.1.1/live" ++ [LF].

(** *** Vocabulary of the further properties *)

(** The channel passes the filter of [filter_ipv6_channels]. *)
Definition passes (ch : Channel) : bool := is_ipv6_url (url ch).

(** A category with its passing channels only. *)
Definition ipv6_only (e : str * list Channel) : str * list Channel :=
  (fst e, filter passes (snd e)).

(** The catalog a run hands to [save_channels_to_file]. *)
Definition final_catalog (file : option str) : Catalog :=
  remove_duplicates_keep_best
    (filter_ipv6_channels (snd (read_result_file file))).

(** The text with every "\n" written as "\r\n". *)
Definition crlf (s : str) : str :=
  flat_map (fun c => if c =? LF then [CR; LF] else [c]) s.

(** The line is a marker line or a channel line. *)
Definition effective (raw : str) : bool :=
  match strip raw with
  | [] => false
  | _ :: _ =>
      endswith GENRE (strip raw) || contains_char COMMA (strip raw)
  end.

(** A label that a written header line gives back. *)
Definition plain_label (k : str) : Prop :=
  no_leading_space k /\ occursb GENRE k = false.

Definition unique_names (c : Catalog) : Prop :=
  Forall (fun e => NoDup (map name (snd e))) c.

Definition mixed_catalog : Catalog :=
  [(lit "News", [mkChannel (lit "CCTV1") (lit "http://192.168.1.1/live");
                 mkChannel (lit "CCTV1") (lit "http://[2409:8087::5]/live");
                 mkChannel (lit "CCTV2") (lit "http://[2001:db8::2]/x")]);
   (lit "Sports", [mkChannel (lit "ESPN") (lit "http://10.0.0.1/live")])].

Definition no_marker_lines : list str :=
  [lit "CCTV1,http://a/1" ++ [LF]; [LF]; lit "CCTV2,http://a/2"].

(** * Proofs *)

(** ** Strings *)

Lemma str_eqb_eq (a b : str) : str_eqb a b = true <-> a = b.
Proof.
  revert b; induction a as [|x a IH]; intros [|y b]; simpl; split;
    try congruence; try reflexivity.
  - intros H; apply andb_true_iff in H as [Hx Hab].
    apply N.eqb_eq in Hx; apply IH in Hab; congruence.
  - intros H; injection H as -> ->.
    rewrite N.eqb_refl; simpl; apply IH; reflexivity.
Qed.

Lemma str_eqb_refl (a : str) : str_eqb a a = true.
Proof. apply str_eqb_eq; reflexivity. Qed.

Lemma str_eqb_neq (a b : str) : str_eqb a b = false <-> a <> b.
Proof.
  split.
  - intros H E; apply str_eqb_eq in E; congruence.
  - intros H; destruct (str_eqb a b) eqn:E; [|reflexivity].
    apply str_eqb_eq in E; contradiction.
Qed.

Lemma str_eqb_sym (a b : str) : str_eqb a b = str_eqb b a.
Proof.
  destruct (str_eqb a b) eqn:E; symmetry.
  - apply str_eqb_eq in E; subst; apply str_eqb_refl.
  - apply str_eqb_neq; apply str_eqb_neq in E; congruence.
Qed.

Lemma startswith_iff (p s : str) :
  startswith p s = true <-> exists rest, s = p ++ rest.
Proof.
  revert s; induction p as [|x p IH]; intros s; simpl.
  - split; [intros _; exists s; reflexivity | reflexivity].
  - destruct s as [|y s].
    + split; [discriminate | intros [r Hr]; discriminate].
    + rewrite andb_true_iff, N.eqb_eq, IH; split.
      * intros [-> [r ->]]; exists r; reflexivity.
      * intros [r Hr]; injection Hr as -> ->; split; [reflexivity|].
        exists r; reflexivity.
Qed.

Lemma occursb_iff (p s : str) : occursb p s = true <-> occurs p s.
Proof.
  induction s as [|c s IH]; simpl.
  - rewrite orb_false_r, startswith_iff; split.
    + intros [r Hr]; exists [], r; exact Hr.
    + intros (pre & post & H).
      destruct pre; [exists post; exact H | discriminate].
  - rewrite orb_true_iff, startswith_iff, IH; split.
    + intros [[r Hr] | (pre & post & ->)].
      * exists [], r; exact Hr.
      * exists (c :: pre), post; reflexivity.
    + intros (pre & post & H); destruct pre as [|x pre].
      * left; exists post; exact H.
      * right; injection H as _ ->; exists pre, post; reflexivity.
Qed.

(** ** Regular expressions: the matcher decides the language *)

Lemma nullable_iff (r : Re.regex) : Re.nullable r = true <-> Matches r [].
Proof.
  induction r; simpl; split; intros H;
    try discriminate; try (now constructor); try (now inversion H).
  - apply andb_true_iff in H as [H1 H2].
    change (@nil char) with (@nil char ++ []); constructor;
      [apply IHr1 | apply IHr2]; assumption.
  - inversion H as [| | |a b s t Ha Hb| | | |]; subst.
    match goal with E : _ ++ _ = [] |- _ => apply app_eq_nil in E as [-> ->] end.
    apply andb_true_iff; split; [apply IHr1 | apply IHr2]; assumption.
  - apply orb_true_iff in H as [H|H];
      [apply MAltL, IHr1 | apply MAltR, IHr2]; assumption.
  - apply orb_true_iff; inversion H; subst;
      [left; apply IHr1 | right; apply IHr2]; assumption.
Qed.

Lemma deriv_sound (c : char) (r : Re.regex) :
  forall s, Matches (Re.deriv c r) s -> Matches r (c :: s).
Proof.
  induction r as [| |x|rs|a IHa b IHb|a IHa b IHb|a IHa]; simpl; intros s H.
  - inversion H.
  - inversion H.
  - destruct (N.eqb_spec x c) as [->|]; inversion H; subst; constructor.
  - destruct (Re.in_class rs c) eqn:E; inversion H; subst.
    constructor; exact E.
  - assert (Hseq : forall s, Matches (Re.Seq (Re.deriv c a) b) s ->
                             Matches (Re.Seq a b) (c :: s)).
    { intros s0 H0; inversion H0; subst.
      change (c :: s1 ++ t) with ((c :: s1) ++ t).
      constructor; [apply IHa|]; assumption. }
    destruct (Re.nullable a) eqn:Na.
    + inversion H; subst; [apply Hseq; assumption|].
      change (c :: s) with ([] ++ c :: s).
      constructor; [apply nullable_iff; exact Na | apply IHb; assumption].
    + apply Hseq; exact H.
  - inversion H; subst; [apply MAltL, IHa | apply MAltR, IHb]; assumption.
  - inversion H; subst.
    change (c :: s0 ++ t) with ((c :: s0) ++ t).
    apply MStarS; [apply IHa|]; assumption.
Qed.

Lemma deriv_complete (c : char) (r : Re.regex) (s : str) :
  Matches r (c :: s) -> Matches (Re.deriv c r) s.
Proof.
  intros H; remember (c :: s) as cs eqn:E; revert s E.
  induction H as [|x|rs x Hx|a b s1 t Ha IHa Hb IHb|a b s1 Ha IHa
                 |a b s1 Hb IHb|a|a s1 t Ha IHa Hs IHs]; intros s E; simpl.
  - discriminate.
  - injection E as -> <-; rewrite N.eqb_refl; constructor.
  - injection E as -> <-; rewrite Hx; constructor.
  - destruct s1 as [|y s1]; simpl in E.
    + subst t. apply nullable_iff in Ha; rewrite Ha.
      apply MAltR, IHb; reflexivity.
    + injection E as -> <-.
      assert (Matches (Re.Seq (Re.deriv c a) b) (s1 ++ t))
        by (constructor; [apply IHa; reflexivity | exact Hb]).
      destruct (Re.nullable a); [apply MAltL|]; assumption.
  - apply MAltL, IHa; exact E.
  - apply MAltR, IHb; exact E.
  - discriminate.
  - destruct s1 as [|y s1]; simpl in E.
    + apply IHs; exact E.
    + injection E as -> <-.
      constructor; [apply IHa; reflexivity | exact Hs].
Qed.

Lemma match_here_iff (r : Re.regex) (s : str) :
  Re.match_here r s = true <-> exists m rest, s = m ++ rest /\ Matches r m.
Proof.
  revert r; induction s as [|c s IH]; intros r; simpl;
    rewrite orb_true_iff, nullable_iff.
  - split.
    + intros [H|H]; [|discriminate]. exists [], []; split; [reflexivity|exact H].
    + intros (m & rest & E & H). symmetry in E.
      apply app_eq_nil in E as [-> _]; left; exact H.
  - rewrite IH; split.
    + intros [H|(m & rest & -> & H)].
      * exists [], (c :: s); split; [reflexivity | exact H].
      * exists (c :: m), rest; split; [reflexivity | apply deriv_sound, H].
    + intros (m & rest & E & H); destruct m as [|x m].
      * left; exact H.
      * injection E as -> ->; right.
        exists m, rest; split; [reflexivity | apply deriv_complete, H].
Qed.

Lemma search_iff (r : Re.regex) (s : str) :
  Re.search r s = true <->
  exists pre m post, s = pre ++ m ++ post /\ Matches r m.
Proof.
  induction s as [|c s IH];
    [change (Re.search r []) with (Re.match_here r [] || false)
    |change (Re.search r (c :: s))
       with (Re.match_here r (c :: s) || Re.search r s)];
    rewrite orb_true_iff, match_here_iff.
  - split.
    + intros [(m & rest & E & H)|H]; [|discriminate].
      exists [], m, rest; split; assumption.
    + intros (pre & m & post & E & H); left.
      destruct pre; [|discriminate]. exists m, post; split; assumption.
  - rewrite IH; split.
    + intros [(m & rest & E & H)|(pre & m & post & -> & H)].
      * exists [], m, rest; split; assumption.
      * exists (c :: pre), m, post; split; [reflexivity | exact H].
    + intros (pre & m & post & E & H); destruct pre as [|x pre].
      * left; exists m, post; split; assumption.
      * injection E as -> ->; right; exists pre, m, post.
        split; [reflexivity | exact H].
Qed.

Lemma Matches_Lit (p m : str) : Matches (Re.Lit p) m <-> m = p.
Proof.
  revert m; induction p as [|c p IH]; intros m; simpl; split; intros H.
  - inversion H; reflexivity.
  - subst; constructor.
  - inversion H as [| | |a b s t Ha Hb| | | |]; subst.
    inversion Ha; subst. apply IH in Hb; subst; reflexivity.
  - subst. change (c :: p) with ([c] ++ p).
    constructor; [constructor | apply IH; reflexivity].
Qed.

Lemma Matches_Star_Class (rs : list (char * char)) (m : str) :
  Matches (Re.Star (Re.Class rs)) m <->
  Forall (fun c => Re.in_class rs c = true) m.
Proof.
  split.
  - intros H; remember (Re.Star (Re.Class rs)) as r eqn:E.
    induction H; try discriminate; [constructor|].
    injection E as ->. inversion H; subst.
    constructor; [assumption | apply IHMatches2; reflexivity].
  - induction 1 as [|c m Hc _ IH]; [constructor|].
    change (c :: m) with ([c] ++ m).
    apply MStarS; [constructor; exact Hc | exact IH].
Qed.

Lemma search_Lit (p u : str) : Re.search (Re.Lit p) u = true <-> occurs p u.
Proof.
  rewrite search_iff; unfold occurs; split.
  - intros (pre & m & post & -> & H); apply Matches_Lit in H; subst.
    exists pre, post; reflexivity.
  - intros (pre & post & ->); exists pre, p, post.
    split; [reflexivity | apply Matches_Lit; reflexivity].
Qed.

Lemma in_hex_colon (c : char) :
  Re.in_class hex_colon c = true <-> is_hex_colon c.
Proof.
  unfold Re.in_class, hex_colon, is_hex_colon, chr; simpl.
  rewrite !orb_true_iff, !andb_true_iff, !N.leb_le. intuition lia.
Qed.

Lemma Matches_Seq (a b : Re.regex) (m : str) :
  Matches (Re.Seq a b) m <->
  exists s t, m = s ++ t /\ Matches a s /\ Matches b t.
Proof.
  split.
  - intros H; inversion H; subst; eauto.
  - intros (s & t & -> & Ha & Hb); constructor; assumption.
Qed.

Lemma Matches_Chr (c : char) (m : str) : Matches (Re.Chr c) m <-> m = [c].
Proof.
  split; intros H; [inversion H; reflexivity | subst; constructor].
Qed.

Lemma Matches_Plus_Class (rs : list (char * char)) (m : str) :
  Matches (Re.Plus (Re.Class rs)) m <->
  m <> [] /\ Forall (fun c => Re.in_class rs c = true) m.
Proof.
  unfold Re.Plus; rewrite Matches_Seq; split.
  - intros (s & t & -> & Hs & Ht). apply Matches_Star_Class in Ht.
    inversion Hs; subst; split; [discriminate|].
    constructor; assumption.
  - intros [Hne Hall]; destruct m as [|c m]; [contradiction|].
    inversion Hall; subst. exists [c], m; repeat split.
    + constructor; assumption.
    + apply Matches_Star_Class; assumption.
Qed.

Lemma search_bracket (u : str) :
  Re.search (Re.Seq (Re.Chr (chr "["))
               (Re.Seq (Re.Plus (Re.Class hex_colon)) (Re.Chr (chr "]")))) u
  = true <-> bracketed_run u.
Proof.
  rewrite search_iff; unfold bracketed_run; split.
  - intros (pre & m & post & -> & H).
    apply Matches_Seq in H as (s1 & m1 & -> & H1 & H).
    apply Matches_Chr in H1 as ->.
    apply Matches_Seq in H as (run & s2 & -> & Hrun & H2).
    apply Matches_Chr in H2 as ->.
    apply Matches_Plus_Class in Hrun as [Hne Hall].
    exists pre, run, post; repeat split.
    + rewrite <- !app_assoc; reflexivity.
    + exact Hne.
    + eapply Forall_impl; [|exact Hall]. intros a; apply in_hex_colon.
  - intros (pre & run & post & -> & Hne & Hall).
    exists pre, ([chr "["] ++ run ++ [chr "]"]), post; split.
    + rewrite <- !app_assoc; reflexivity.
    + apply Matches_Seq; exists [chr "["], (run ++ [chr "]"]).
      split; [reflexivity|]. split; [apply Matches_Chr; reflexivity|].
      apply Matches_Seq; exists run, [chr "]"].
      split; [reflexivity|]. split; [|apply Matches_Chr; reflexivity].
      apply Matches_Plus_Class; split; [exact Hne|].
      eapply Forall_impl; [|exact Hall]. intros a; apply in_hex_colon.
Qed.

(** C4. For every URL string, the empty one included, [is_ipv6_url] returns
    true exactly when one of the five rules holds: a non-empty run of hex
    digits and colons in square brackets, or one of the substrings
    "2409:8087:", "2001:", "::1", "fe80:".  The classifier is a total
    function, so it raises on no string.  It accepts
    "http://[2409:8087:1001::5]/live" and "http://example.com/2001:path"
    and rejects "http://192.168.1.1:8080/live" and the empty string. *)
Theorem is_ipv6_url_five_rules :
  (forall u : str, is_ipv6_url u = true <-> five_rules u)
  /\ is_ipv6_url (lit "http://[2409:8087:1001::5]/live") = true
  /\ is_ipv6_url (lit "http://192.168.1.1:8080/live") = false
  /\ is_ipv6_url (lit "http://example.com/2001:path") = true
  /\ is_ipv6_url [] = false.
Proof.
  split; [|repeat split; vm_compute; reflexivity].
  intros u; unfold is_ipv6_url, ipv6_patterns, five_rules, any_pattern.
  rewrite <- search_bracket, <- !search_Lit.
  repeat match goal with
         | |- context [if ?b then true else _] => destruct b
         end; intuition discriminate.
Qed.

(** ** Ordered dictionaries *)

Section DictFacts.
Context {V : Type}.
Implicit Types (d : Dict.dict V) (k : str) (v : V).

Lemma get_None_iff d k : Dict.get d k = None <-> ~ In k (Dict.keys d).
Proof.
  induction d as [|[k' v'] d IH]; simpl; [tauto|].
  destruct (str_eqb k' k) eqn:E.
  - apply str_eqb_eq in E; subst; split; [discriminate | tauto].
  - apply str_eqb_neq in E; rewrite IH; tauto.
Qed.

Lemma get_Some_In d k v : Dict.get d k = Some v -> In (k, v) d.
Proof.
  induction d as [|[k' v'] d IH]; simpl; [discriminate|].
  destruct (str_eqb k' k) eqn:E.
  - apply str_eqb_eq in E; subst; intros [= ->]; left; reflexivity.
  - intros H; right; apply IH, H.
Qed.

Lemma In_get_Some d k v :
  NoDup (Dict.keys d) -> In (k, v) d -> Dict.get d k = Some v.
Proof.
  induction d as [|[k' v'] d IH]; simpl; intros Hnd; [tauto|].
  inversion Hnd as [|? ? Hk Hd]; subst. intros [[= -> ->]|Hin].
  - rewrite str_eqb_refl; reflexivity.
  - destruct (str_eqb k' k) eqn:E; [|apply IH; assumption].
    apply str_eqb_eq in E; subst. exfalso; apply Hk.
    apply (in_map fst) in Hin; exact Hin.
Qed.

Lemma set_absent d k v : Dict.get d k = None -> Dict.set d k v = d ++ [(k, v)].
Proof.
  induction d as [|[k' v'] d IH]; simpl; [reflexivity|].
  destruct (str_eqb k' k); [discriminate|]. intros H; rewrite IH; auto.
Qed.

Lemma set_present d1 d2 k v0 v :
  ~ In k (Dict.keys d1) ->
  Dict.set (d1 ++ (k, v0) :: d2) k v = d1 ++ (k, v) :: d2.
Proof.
  induction d1 as [|[k' v'] d1 IH]; simpl; intros H.
  - rewrite str_eqb_refl; reflexivity.
  - destruct (str_eqb k' k) eqn:E.
    + apply str_eqb_eq in E; subst; tauto.
    + rewrite IH; tauto.
Qed.

Lemma keys_set d k v :
  Dict.keys (Dict.set d k v)
  = match Dict.get d k with
    | Some _ => Dict.keys d
    | None => Dict.keys d ++ [k]
    end.
Proof.
  induction d as [|[k' v'] d IH]; simpl; [reflexivity|].
  destruct (str_eqb k' k) eqn:E; simpl; [reflexivity|].
  rewrite IH; destruct (Dict.get d k); reflexivity.
Qed.

Lemma get_set_same d k v : Dict.get (Dict.set d k v) k = Some v.
Proof.
  induction d as [|[k' v'] d IH]; simpl.
  - rewrite str_eqb_refl; reflexivity.
  - destruct (str_eqb k' k) eqn:E; simpl; rewrite E; [reflexivity | exact IH].
Qed.

Lemma get_set_other d k k' v :
  k <> k' -> Dict.get (Dict.set d k v) k' = Dict.get d k'.
Proof.
  intros Hne; induction d as [|[k0 v0] d IH]; simpl.
  - apply str_eqb_neq in Hne; rewrite Hne; reflexivity.
  - destruct (str_eqb k0 k) eqn:E; simpl; [|rewrite IH; reflexivity].
    apply str_eqb_eq in E; subst.
    apply str_eqb_neq in Hne; rewrite Hne; reflexivity.
Qed.

Lemma NoDup_keys_set d k v :
  NoDup (Dict.keys d) -> NoDup (Dict.keys (Dict.set d k v)).
Proof.
  intros H; rewrite keys_set; destruct (Dict.get d k) eqn:E; [exact H|].
  apply get_None_iff in E.
  apply NoDup_app; [exact H | repeat constructor; simpl; tauto |].
  intros x Hx [<-|[]]; contradiction.
Qed.

Lemma In_set d k v k' v' :
  In (k', v') (Dict.set d k v) -> (k', v') = (k, v) \/ In (k', v') d.
Proof.
  induction d as [|[k0 v0] d IH]; simpl.
  - intros [H|[]]; left; symmetry; exact H.
  - destruct (str_eqb k0 k) eqn:E; simpl.
    + apply str_eqb_eq in E; subst; intros [H|H]; [left; symmetry|]; tauto.
    + intros [H|H]; [tauto|]. apply IH in H; tauto.
Qed.

End DictFacts.

Lemma get_append_same {A : Type} (d : Dict.dict (list A)) k x :
  Dict.get (Dict.append d k x) k
  = Some (match Dict.get d k with Some l => l | None => [] end ++ [x]).
Proof.
  unfold Dict.append; destruct (Dict.get d k); apply get_set_same.
Qed.

Lemma get_append_other {A : Type} (d : Dict.dict (list A)) k k' x :
  k <> k' -> Dict.get (Dict.append d k x) k' = Dict.get d k'.
Proof.
  intros H; unfold Dict.append; destruct (Dict.get d k);
    apply get_set_other, H.
Qed.

Lemma keys_append {A : Type} (d : Dict.dict (list A)) k x :
  Dict.keys (Dict.append d k x)
  = match Dict.get d k with
    | Some _ => Dict.keys d
    | None => Dict.keys d ++ [k]
    end.
Proof.
  unfold Dict.append; destruct (Dict.get d k) eqn:E;
    rewrite keys_set, E; reflexivity.
Qed.

Lemma In_append {A : Type} (d : Dict.dict (list A)) k x k' l' :
  In (k', l') (Dict.append d k x) ->
  In (k', l') d \/ (k' = k /\ exists l, l' = l ++ [x]
                              /\ (l = [] \/ In (k, l) d)).
Proof.
  unfold Dict.append; destruct (Dict.get d k) eqn:E; intros H;
    apply In_set in H as [[= -> ->]|H]; auto; right;
    (split; [reflexivity|]).
  - exists l; split; [reflexivity|]. right; apply get_Some_In, E.
  - exists []; auto.
Qed.

(** ** First occurrences *)

Lemma In_first_occurrences (l : list str) (x : str) :
  In x (first_occurrences l) <-> In x l.
Proof.
  induction l as [|a l IH]; simpl; [tauto|].
  rewrite filter_In, IH, negb_true_iff, str_eqb_neq.
  destruct (str_eqb a x) eqn:E.
  - apply str_eqb_eq in E; tauto.
  - apply str_eqb_neq in E; tauto.
Qed.

Lemma NoDup_first_occurrences (l : list str) : NoDup (first_occurrences l).
Proof.
  induction l as [|a l IH]; simpl; constructor.
  - rewrite filter_In, negb_true_iff, str_eqb_neq; tauto.
  - apply NoDup_filter, IH.
Qed.

Lemma first_occurrences_snoc (l : list str) (x : str) :
  first_occurrences (l ++ [x])
  = first_occurrences l ++ (if existsb (str_eqb x) l then [] else [x]).
Proof.
  induction l as [|a l IH]; simpl; [reflexivity|].
  rewrite IH, filter_app; f_equal; f_equal.
  rewrite (str_eqb_sym x a).
  destruct (existsb (str_eqb x) l); simpl.
  - rewrite orb_true_r; reflexivity.
  - rewrite orb_false_r; destruct (str_eqb a x); reflexivity.
Qed.

Lemma first_occurrences_NoDup_id (l : list str) :
  NoDup l -> first_occurrences l = l.
Proof.
  induction 1 as [|a l Ha _ IH]; simpl; [reflexivity|].
  rewrite IH; f_equal. apply forallb_filter_id, forallb_forall.
  intros y Hy; apply negb_true_iff, str_eqb_neq; congruence.
Qed.

Lemma existsb_str_eqb (x : str) (l : list str) :
  existsb (str_eqb x) l = true <-> In x l.
Proof.
  rewrite existsb_exists; split.
  - intros (y & Hy & E); apply str_eqb_eq in E; subst; exact Hy.
  - intros H; exists x; split; [exact H | apply str_eqb_refl].
Qed.

(** ** remove_duplicates_keep_best *)

Lemma In_set_distinct {V : Type} (d : Dict.dict V) k v k' v' :
  NoDup (Dict.keys d) -> In (k', v') (Dict.set d k v) ->
  (k', v') = (k, v) \/ (k' <> k /\ In (k', v') d).
Proof.
  induction d as [|[k0 v0] d IH]; simpl; intros Hnd.
  - intros [H|[]]; left; symmetry; exact H.
  - inversion Hnd as [|? ? Hk Hd]; subst.
    destruct (str_eqb k0 k) eqn:E; simpl.
    + apply str_eqb_eq in E; subst. intros [H|H]; [left; symmetry; exact H|].
      right; split; [|right; exact H].
      intros ->; apply Hk; apply (in_map fst) in H; exact H.
    + apply str_eqb_neq in E. intros [[= <- <-]|H]; [right; split; auto|].
      apply IH in H as [H|[H1 H2]]; auto.
Qed.

Lemma wins_in_bound (ch : Channel) (p : list Channel) :
  wins_in ch p ->
  forall c, In c p -> name c = name ch ->
            (List.length (url ch) <= List.length (url c))%nat.
Proof.
  intros (b & a & -> & Hb & Ha) c Hc Hn.
  apply in_app_or in Hc as [Hc|[<-|Hc]].
  - apply Nat.lt_le_incl, Hb; assumption.
  - apply Nat.le_refl.
  - apply Ha; assumption.
Qed.

Lemma wins_in_snoc (ch x : Channel) (p : list Channel) :
  wins_in ch p ->
  (name x = name ch -> (List.length (url ch) <= List.length (url x))%nat) ->
  wins_in ch (p ++ [x]).
Proof.
  intros (b & a & -> & Hb & Ha) Hx.
  exists b, (a ++ [x]); split; [rewrite <- app_assoc; reflexivity|].
  split; [exact Hb|]. intros c Hc Hn.
  apply in_app_or in Hc as [Hc|[<-|[]]]; auto.
Qed.

Lemma wins_in_last (x : Channel) (p : list Channel) :
  (forall c, In c p -> name c = name x ->
             (List.length (url x) < List.length (url c))%nat) ->
  wins_in x (p ++ [x]).
Proof.
  intros H; exists p, []; split; [reflexivity|].
  split; [exact H | intros c []].
Qed.

Lemma seen_ok_NoDup seen p : seen_ok seen p -> NoDup (Dict.keys seen).
Proof. intros [-> _]; apply NoDup_first_occurrences. Qed.

Lemma seen_ok_names seen p n :
  seen_ok seen p -> In n (Dict.keys seen) <-> In n (map name p).
Proof. intros [-> _]; apply In_first_occurrences. Qed.

Lemma keep_best_ok seen p x :
  seen_ok seen p -> seen_ok (keep_best seen x) (p ++ [x]).
Proof.
  intros Hok; pose proof (seen_ok_NoDup _ _ Hok) as Hnd.
  pose proof (seen_ok_names _ _ (name x) Hok) as Hnames.
  destruct Hok as [Hkeys Hall]; rewrite Forall_forall in Hall.
  unfold keep_best, seen_ok; rewrite map_app; cbn [map].
  rewrite first_occurrences_snoc.
  destruct (Dict.get seen (name x)) as [ex|] eqn:G.
  - (* the name has been seen *)
    pose proof (get_Some_In _ _ _ G) as Hin.
    destruct (Hall _ Hin) as [Hname Hwin]; simpl in Hname, Hwin.
    assert (Hex : existsb (str_eqb (name x)) (map name p) = true).
    { apply existsb_str_eqb, Hnames.
      apply (in_map fst) in Hin; exact Hin. }
    rewrite Hex, app_nil_r.
    destruct (List.length (url x) <? List.length (url ex))%nat eqn:L.
    + apply Nat.ltb_lt in L; split; [rewrite keys_set, G; exact Hkeys|].
      apply Forall_forall; intros [k v] He; simpl.
      apply In_set_distinct in He as [[= -> ->]|[Hne He]]; [| |exact Hnd].
      * split; [reflexivity|]. apply wins_in_last; intros c Hc Hn.
        eapply Nat.lt_le_trans; [exact L|].
        apply (wins_in_bound _ _ Hwin); congruence.
      * destruct (Hall _ He) as [Hn Hw]; simpl in Hn, Hw.
        split; [exact Hn|]. apply wins_in_snoc; [exact Hw|]. congruence.
    + apply Nat.ltb_ge in L; split; [exact Hkeys|].
      apply Forall_forall; intros [k v] He; simpl.
      destruct (Hall _ He) as [Hn Hw]; simpl in Hn, Hw.
      split; [exact Hn|]. apply wins_in_snoc; [exact Hw|]. intros E.
      assert (v = ex); [|subst; exact L].
      rewrite E, Hn in G.
      apply (In_get_Some _ _ _ Hnd) in He; congruence.
  - (* a new name *)
    pose proof G as Hnew; apply get_None_iff in Hnew.
    assert (Hex : existsb (str_eqb (name x)) (map name p) = false).
    { destruct (existsb _ _) eqn:E; [|reflexivity].
      apply existsb_str_eqb, Hnames in E; contradiction. }
    rewrite Hex, set_absent by exact G; split.
    + unfold Dict.keys; rewrite map_app; simpl; f_equal; exact Hkeys.
    + apply Forall_app; split; [|repeat constructor; simpl].
      * apply Forall_forall; intros [k v] He.
        destruct (Hall _ He) as [Hn Hw]; simpl in *.
        split; [exact Hn|]. apply wins_in_snoc; [exact Hw|]. intros E.
        exfalso; apply Hnew. apply (in_map fst) in He; simpl in He.
        rewrite E, Hn; exact He.
      * apply wins_in_last; intros c Hc Hn; exfalso.
        apply Hnew, Hnames. rewrite <- Hn; apply in_map, Hc.
Qed.

Lemma keep_best_all_ok (l : list Channel) :
  seen_ok (fold_left keep_best l []) l.
Proof.
  induction l as [|x l IH] using rev_ind.
  - split; [reflexivity | constructor].
  - rewrite fold_left_app; simpl; apply keep_best_ok, IH.
Qed.

Lemma best_of_names (l : list Channel) :
  map name (best_of l) = first_occurrences (map name l).
Proof.
  destruct (keep_best_all_ok l) as [<- Hall]; unfold best_of, Dict.keys.
  rewrite map_map; apply map_ext_in; intros e He.
  rewrite Forall_forall in Hall; apply Hall, He.
Qed.

Lemma best_of_wins (l : list Channel) (ch : Channel) :
  In ch (best_of l) -> wins_in ch l.
Proof.
  destruct (keep_best_all_ok l) as [_ Hall]; unfold best_of.
  rewrite in_map_iff; intros (e & <- & He).
  rewrite Forall_forall in Hall; apply Hall, He.
Qed.

Lemma wins_in_In (ch : Channel) (l : list Channel) : wins_in ch l -> In ch l.
Proof. intros (b & a & -> & _); apply in_elt. Qed.

Lemma same_names_eq (r l : list Channel) :
  map name r = map name l -> NoDup (map name l) ->
  (forall x, In x r -> In x l) -> r = l.
Proof.
  revert r; induction l as [|y l IH]; intros [|x r]; simpl;
    try discriminate; [reflexivity|].
  intros [= Hn Hm] Hnd Hin; inversion Hnd as [|? ? Hy Hl]; subst.
  assert (x = y) as ->.
  { destruct (Hin x (or_introl eq_refl)) as [E|E]; [congruence|].
    exfalso; apply Hy; rewrite <- Hn; apply in_map, E. }
  f_equal; apply IH; [exact Hm | exact Hl|].
  intros z Hz; destruct (Hin z (or_intror Hz)) as [E|E]; [|exact E].
  subst z; exfalso; apply Hy; rewrite <- Hm; apply in_map, Hz.
Qed.

Lemma best_of_NoDup_id (l : list Channel) :
  NoDup (map name l) -> best_of l = l.
Proof.
  intros Hnd; apply same_names_eq; [|exact Hnd|].
  - rewrite best_of_names; apply first_occurrences_NoDup_id, Hnd.
  - intros x Hx; apply wins_in_In, best_of_wins, Hx.
Qed.

Lemma best_of_idem (l : list Channel) : best_of (best_of l) = best_of l.
Proof.
  apply best_of_NoDup_id; rewrite best_of_names.
  apply NoDup_first_occurrences.
Qed.

Lemma dedup_fold (c acc : Catalog) :
  NoDup (Dict.keys acc ++ Dict.keys c) ->
  fold_left dedup_category c acc = acc ++ map dedup_entry c.
Proof.
  revert acc; induction c as [|[k l] c IH]; intros acc Hnd; simpl.
  - rewrite app_nil_r; reflexivity.
  - unfold dedup_category at 2; simpl.
    assert (Hk : ~ In k (Dict.keys acc)).
    { intros Hk; apply NoDup_remove_2 in Hnd; apply Hnd.
      apply in_or_app; auto. }
    rewrite set_absent by (apply get_None_iff, Hk).
    rewrite IH; [rewrite <- app_assoc; reflexivity|].
    unfold Dict.keys in *; rewrite map_app, <- app_assoc; exact Hnd.
Qed.

Lemma dedup_map (c : Catalog) :
  NoDup (Dict.keys c) ->
  remove_duplicates_keep_best c = map dedup_entry c.
Proof.
  intros H; unfold remove_duplicates_keep_best; rewrite dedup_fold; auto.
Qed.

Lemma dedup_fold_settled (c acc : Catalog) :
  settled acc -> settled (fold_left dedup_category c acc).
Proof.
  revert acc; induction c as [|[k l] c IH]; intros acc [Hnd Hall]; simpl.
  - split; assumption.
  - apply IH; unfold dedup_category; simpl; split.
    + apply NoDup_keys_set, Hnd.
    + rewrite Forall_forall in *; intros [k' v'] He.
      apply In_set in He as [[= -> ->]|He]; [apply best_of_idem|].
      apply Hall, He.
Qed.

Lemma settled_fixpoint (d : Catalog) :
  settled d -> remove_duplicates_keep_best d = d.
Proof.
  intros [Hnd Hall]; rewrite dedup_map by exact Hnd.
  rewrite <- (map_id d) at 2; apply map_ext_in; intros [k l] He.
  rewrite Forall_forall in Hall; unfold dedup_entry; simpl.
  f_equal; apply (Hall _ He).
Qed.

(** C8. The Deduplicator is idempotent: applying
    [remove_duplicates_keep_best] to its own result changes nothing, for
    every catalog. *)
Theorem remove_duplicates_idempotent (c : Catalog) :
  remove_duplicates_keep_best (remove_duplicates_keep_best c)
  = remove_duplicates_keep_best c.
Proof.
  apply settled_fixpoint, dedup_fold_settled.
  split; constructor.
Qed.

Lemma keys_dedup_map (c : Catalog) :
  Dict.keys (map dedup_entry c) = Dict.keys c.
Proof.
  unfold Dict.keys; rewrite map_map; reflexivity.
Qed.

(** C3. Within every category the Deduplicator keeps exactly one channel per
    name occurring in it: the kept names are the distinct names in the order
    of their first occurrence, and the kept channel is the one that wins the
    walk through the category, where a later same-named channel replaces the
    recorded one only when its URL is strictly shorter (a tie keeps the
    earlier one).  Of the two channels named "CCTV1" with URLs
    "http://a.com/longpath/stream" and "http://b.co/s" the second is kept. *)
Theorem dedup_keeps_shortest_first :
  (forall (c : Catalog) (k : str) (l : list Channel),
      NoDup (Dict.keys c) -> In (k, l) c ->
      Dict.keys (remove_duplicates_keep_best c) = Dict.keys c
      /\ exists r,
          Dict.get (remove_duplicates_keep_best c) k = Some r
          /\ map name r = first_occurrences (map name l)
          /\ NoDup (map name r)
          /\ (forall ch, In ch l ->
                exists kept, In kept r /\ name kept = name ch)
          /\ (forall kept, In kept r -> wins_in kept l))
  /\ remove_duplicates_keep_best
       [(lit "News", [cctv1_long; cctv1_short])]
     = [(lit "News", [cctv1_short])].
Proof.
  split; [|vm_compute; reflexivity].
  intros c k l Hnd Hin; rewrite dedup_map by exact Hnd.
  split; [apply keys_dedup_map|].
  exists (best_of l); split; [|split; [|split; [|split]]].
  - apply In_get_Some; [rewrite keys_dedup_map; exact Hnd|].
    apply (in_map dedup_entry) in Hin; exact Hin.
  - apply best_of_names.
  - rewrite best_of_names; apply NoDup_first_occurrences.
  - intros ch Hch.
    assert (H : In (name ch) (map name (best_of l))).
    { rewrite best_of_names; apply In_first_occurrences, in_map, Hch. }
    apply in_map_iff in H as (kept & Hn & Hk); exists kept; auto.
  - apply best_of_wins.
Qed.

Lemma dedup_keeps_shortest_first_witness :
  NoDup (Dict.keys [(lit "News", [cctv1_long; cctv1_short])])
  /\ In (lit "News", [cctv1_long; cctv1_short])
        [(lit "News", [cctv1_long; cctv1_short])]
  /\ (Dict.keys (remove_duplicates_keep_best
                   [(lit "News", [cctv1_long; cctv1_short])])
      = Dict.keys [(lit "News", [cctv1_long; cctv1_short])]
      /\ exists r,
          Dict.get (remove_duplicates_keep_best
                      [(lit "News", [cctv1_long; cctv1_short])]) (lit "News")
          = Some r
          /\ map name r = first_occurrences (map name [cctv1_long; cctv1_short])
          /\ NoDup (map name r)
          /\ (forall ch, In ch [cctv1_long; cctv1_short] ->
                exists kept, In kept r /\ name kept = name ch)
          /\ (forall kept, In kept r ->
                wins_in kept [cctv1_long; cctv1_short])).
Proof.
  assert (Hnd : NoDup (Dict.keys [(lit "News", [cctv1_long; cctv1_short])])).
  { repeat constructor; simpl; tauto. }
  assert (Hin : In (lit "News", [cctv1_long; cctv1_short])
                   [(lit "News", [cctv1_long; cctv1_short])]).
  { left; reflexivity. }
  split; [exact Hnd|]. split; [exact Hin|].
  exact (proj1 dedup_keeps_shortest_first _ _ _ Hnd Hin).
Defined.

(** ** save_channels_to_file *)

Lemma join_blank_cons (b : str) (bs : list str) :
  join_blank (b :: bs) = b ++ blank_before bs.
Proof.
  revert b; induction bs as [|b' bs IH]; intros b.
  - simpl; rewrite app_nil_r; reflexivity.
  - change (join_blank (b :: b' :: bs))
      with (b ++ [LF] ++ join_blank (b' :: bs)).
    rewrite IH; reflexivity.
Qed.

Lemma encodable_app (a b : str) :
  encodable_str (a ++ b) = encodable_str a && encodable_str b.
Proof. apply forallb_app. Qed.

Lemma wrote_f_write (out s : str) : wrote out s (f_write out s).
Proof.
  unfold f_write, wrote; destruct (encodable_str s) eqn:E; [auto|].
  split; [reflexivity|]. exists [], s; rewrite app_nil_r; auto.
Qed.

Lemma wrote_nothing (out : str) : wrote out [] (inl out).
Proof. split; [rewrite app_nil_r|]; reflexivity. Qed.

(** One piece of text after another: the second is written where the first
    went through. *)
Lemma wrote_seq (out T1 T2 : str) (r1 : str + str) (k : str -> str + str) :
  wrote out T1 r1 -> (forall o, wrote o T2 (k o)) ->
  wrote out (T1 ++ T2) (match r1 with inl o => k o | inr p => inr p end).
Proof.
  intros H1 H2; destruct r1 as [o|p].
  - destruct H1 as [-> E1]; specialize (H2 (out ++ T1)); unfold wrote in *.
    destruct (k (out ++ T1)) as [o'|p].
    + destruct H2 as [-> E2]; rewrite encodable_app, E1, E2, app_assoc; auto.
    + destruct H2 as (E2 & q & rest & -> & ->).
      rewrite encodable_app, E1, E2; split; [reflexivity|].
      exists (T1 ++ q), rest; rewrite <- !app_assoc; auto.
  - destruct H1 as (E1 & q & rest & -> & ->); unfold wrote.
    rewrite encodable_app, E1; split; [reflexivity|].
    exists q, (rest ++ T2); rewrite <- app_assoc; auto.
Qed.

Lemma write_channels_wrote (l : list Channel) (out : str) :
  wrote out (flat_map (fun ch => channel_line ch ++ [LF]) l)
        (try_fold write_channel l out).
Proof.
  revert out; induction l as [|ch l IH]; intros out; [apply wrote_nothing|].
  cbn [flat_map try_fold].
  apply (wrote_seq out (channel_line ch ++ [LF]) _ (write_channel out ch)
                   (try_fold write_channel l)); [|exact IH].
  unfold write_channel, channel_line; rewrite <- !app_assoc.
  apply wrote_f_write.
Qed.

Lemma blank_before_cons (b : str) (bs : list str) :
  blank_before (b :: bs) = [LF] ++ b ++ blank_before bs.
Proof. reflexivity. Qed.

Lemma block_pieces (k : str) (l : list Channel) :
  block (k, l)
  = (k ++ GENRE ++ [LF]) ++ flat_map (fun ch => channel_line ch ++ [LF]) l.
Proof.
  unfold block, header_line; cbn [fst snd]; rewrite <- !app_assoc.
  reflexivity.
Qed.

Lemma write_category_steps (c : Catalog) (k : str) (ch : Channel)
      (l : list Channel) (out : str) (first : bool) :
  strip_flag (try_fold write_category ((k, ch :: l) :: c) (out, first))
  = match (if first then inl out else f_write out [LF]) with
    | inl out1 =>
        match f_write out1 (k ++ GENRE ++ [LF]) with
        | inl out2 =>
            match try_fold write_channel (ch :: l) out2 with
            | inl out3 =>
                strip_flag (try_fold write_category c (out3, false))
            | inr p => inr p
            end
        | inr p => inr p
        end
    | inr p => inr p
    end.
Proof.
  cbn [try_fold write_category].
  destruct (if first then inl out else f_write out [LF]) as [out1|p];
    [|reflexivity].
  destruct (f_write out1 (k ++ GENRE ++ [LF])) as [out2|p]; [|reflexivity].
  destruct (match write_channel out2 ch with
            | inl s' => try_fold write_channel l s'
            | inr partial => inr partial
            end) as [out3|p]; reflexivity.
Qed.

Lemma write_categories_wrote (c : Catalog) (out : str) (first : bool) :
  wrote out (if first then layout c else blank_before (blocks_of c))
        (strip_flag (try_fold write_category c (out, first))).
Proof.
  revert out first; induction c as [|[k l] c IH]; intros out first.
  - destruct first; apply wrote_nothing.
  - destruct l as [|ch l].
    + cbn [try_fold write_category].
      specialize (IH out first); unfold layout, blocks_of in *.
      cbn [filter has_channels snd]; exact IH.
    + rewrite write_category_steps.
      assert (T : (if first then layout ((k, ch :: l) :: c)
                   else blank_before (blocks_of ((k, ch :: l) :: c)))
                  = (if first then [] else [LF])
                    ++ (k ++ GENRE ++ [LF])
                    ++ flat_map (fun x => channel_line x ++ [LF]) (ch :: l)
                    ++ blank_before (blocks_of c)).
      { unfold layout, blocks_of; cbn [filter has_channels snd map].
        rewrite join_blank_cons, blank_before_cons, block_pieces.
        destruct first; cbn [app]; rewrite <- ?app_assoc; reflexivity. }
      rewrite T; apply wrote_seq.
      * destruct first; [apply wrote_nothing | apply wrote_f_write].
      * intros out1; apply wrote_seq; [apply wrote_f_write|].
        intros out2; apply wrote_seq; [apply write_channels_wrote|].
        intros out3; apply (IH out3 false).
Qed.

(** What the writer leaves: the layout when every piece can be encoded,
    and otherwise a beginning of it. *)
Lemma save_wrote (c : Catalog) :
  match save_channels_to_file c with
  | Written text => text = layout c /\ encodable_str (layout c) = true
  | EncodeError partial =>
      encodable_str (layout c) = false
      /\ exists rest, layout c = partial ++ rest
  end.
Proof.
  unfold save_channels_to_file.
  match goal with
  | |- context [try_fold write_category c ?st] =>
      pose proof (write_categories_wrote c [] true
                  : wrote [] (layout c)
                          (strip_flag (try_fold write_category c st))) as H;
      destruct (try_fold write_category c st) as [[o f]|p]
  end; cbn [strip_flag wrote] in H.
  - exact H.
  - destruct H as (E & q & rest & -> & T); split; [exact E|].
    exists rest; exact T.
Qed.

Lemma save_encodable (c : Catalog) :
  encodable_str (layout c) = true ->
  save_channels_to_file c = Written (layout c).
Proof.
  intros E; pose proof (save_wrote c) as H.
  destruct (save_channels_to_file c) as [t|p].
  - destruct H as [-> _]; reflexivity.
  - destruct H as [H _]; congruence.
Qed.

Lemma save_written (c : Catalog) (text : str) :
  save_channels_to_file c = Written text ->
  text = layout c /\ encodable_str (layout c) = true.
Proof.
  intros E; pose proof (save_wrote c) as H; rewrite E in H; exact H.
Qed.

Lemma encodable_join_blank (bs : list str) :
  Forall (fun b => encodable_str b = true) bs ->
  encodable_str (join_blank bs) = true.
Proof.
  induction 1 as [|b bs Hb Hbs IH]; [reflexivity|].
  destruct bs as [|b' bs]; [exact Hb|].
  change (join_blank (b :: b' :: bs)) with (b ++ [LF] ++ join_blank (b' :: bs)).
  rewrite !encodable_app, Hb, IH; reflexivity.
Qed.

Lemma encodable_block (e : str * list Channel) :
  encodable_str (fst e) = true ->
  Forall (fun ch => encodable_str (name ch) = true
                    /\ encodable_str (url ch) = true) (snd e) ->
  encodable_str (block e) = true.
Proof.
  intros Hk Hl; unfold block, header_line.
  rewrite !encodable_app, Hk; cbn [andb].
  induction Hl as [|ch l [Hn Hu] _ IH]; [reflexivity|].
  cbn [flat_map]; unfold channel_line at 1.
  rewrite !encodable_app, Hn, Hu; exact IH.
Qed.

Lemma encodable_layout (c : Catalog) :
  encodable_catalog c -> encodable_str (layout c) = true.
Proof.
  intros H; unfold layout; apply encodable_join_blank, Forall_map.
  apply Forall_forall; intros e He; apply filter_In in He as [He _].
  unfold encodable_catalog in H; rewrite Forall_forall in H.
  destruct (H e He) as [Hk Hl]; apply encodable_block; assumption.
Qed.

(** ** filter_ipv6_channels *)

Lemma filter_channels_keys (k : str) (l : list Channel) (acc : Catalog)
      (k' : str) :
  In k' (Dict.keys (fold_left (filter_channel k) l acc)) ->
  In k' (Dict.keys acc)
  \/ (k' = k /\ exists ch, In ch l /\ is_ipv6_url (url ch) = true).
Proof.
  revert acc; induction l as [|x l IH]; intros acc; simpl; [auto|].
  intros H; apply IH in H as [H|[-> (ch & Hch & Hp)]].
  - unfold filter_channel in H. destruct (is_ipv6_url (url x)) eqn:E; auto.
    rewrite keys_append in H. destruct (Dict.get acc k); auto.
    apply in_app_or in H as [H|[<-|[]]]; auto.
    right; split; [reflexivity|]. exists x; auto.
  - right; split; [reflexivity|]. exists ch; auto.
Qed.

Lemma filter_fold_keys (c acc : Catalog) (k : str) :
  In k (Dict.keys (fold_left filter_category c acc)) ->
  In k (Dict.keys acc)
  \/ exists l ch, In (k, l) c /\ In ch l /\ is_ipv6_url (url ch) = true.
Proof.
  revert acc; induction c as [|[k0 l0] c IH]; intros acc; simpl; [auto|].
  intros H; apply IH in H as [H|(l & ch & H1 & H2 & H3)].
  - apply filter_channels_keys in H as [H|[-> (ch & H1 & H2)]]; auto.
    right; exists l0, ch; auto.
  - right; exists l, ch; auto.
Qed.

Lemma filter_channels_all_fail (k : str) (l : list Channel) (acc : Catalog) :
  (forall ch, In ch l -> is_ipv6_url (url ch) = false) ->
  fold_left (filter_channel k) l acc = acc.
Proof.
  revert acc; induction l as [|x l IH]; intros acc H; simpl; [reflexivity|].
  unfold filter_channel at 2; rewrite (H x) by (left; reflexivity).
  apply IH; intros ch Hch; apply H; right; exact Hch.
Qed.

Lemma filter_fold_without (k : str) (c acc : Catalog) :
  all_fail k c ->
  fold_left filter_category (without k c) acc
  = fold_left filter_category c acc.
Proof.
  revert acc; induction c as [|[k0 l0] c IH]; intros acc H; [reflexivity|].
  assert (Hc : all_fail k c).
  { intros l ch Hl; apply H; right; exact Hl. }
  unfold without; cbn [filter fst fold_left].
  destruct (str_eqb k0 k) eqn:E; cbn [negb fold_left].
  - apply str_eqb_eq in E; subst k0.
    replace (filter_category acc (k, l0)) with acc; [apply IH, Hc|].
    unfold filter_category; cbn [fst snd].
    rewrite filter_channels_all_fail; [reflexivity|].
    intros ch; apply (H l0); left; reflexivity.
  - apply IH, Hc.
Qed.

Lemma dedup_fold_keys (c acc : Catalog) (k : str) :
  In k (Dict.keys (fold_left dedup_category c acc)) ->
  In k (Dict.keys acc) \/ In k (Dict.keys c).
Proof.
  revert acc; induction c as [|[k0 l0] c IH]; intros acc; simpl; [auto|].
  intros H; apply IH in H as [H|H]; auto.
  unfold dedup_category in H; rewrite keys_set in H; simpl in H.
  destruct (Dict.get acc k0); auto.
  apply in_app_or in H as [H|[<-|[]]]; auto.
Qed.

Lemma pruned_category (k : str) (c : Catalog) :
  all_fail k c ->
  ~ In k (Dict.keys (remove_duplicates_keep_best (filter_ipv6_channels c))).
Proof.
  intros H Hin. apply dedup_fold_keys in Hin as [[]|Hin].
  apply filter_fold_keys in Hin as [[]|(l & ch & H1 & H2 & H3)].
  rewrite (H l ch H1 H2) in H3; discriminate.
Qed.

Lemma main_written (file : option str) (out : str) :
  written (main file) = Some out ->
  save_channels_to_file
    (remove_duplicates_keep_best
       (filter_ipv6_channels (snd (read_result_file file))))
  = Written out.
Proof.
  unfold main; destruct (read_result_file file) as [notes channels].
  cbn [snd]; destruct channels as [|e channels]; [discriminate|].
  destruct (filter_ipv6_channels (e :: channels)) as [|e' f]; [discriminate|].
  destruct (save_channels_to_file (remove_duplicates_keep_best (e' :: f)));
    [|discriminate].
  cbn [written]; intros [= <-]; reflexivity.
Qed.

Lemma main_written_layout (file : option str) (out : str) :
  written (main file) = Some out ->
  out = layout (remove_duplicates_keep_best
                  (filter_ipv6_channels (snd (read_result_file file)))).
Proof.
  intros H; apply main_written, save_written in H; apply H.
Qed.

(** C5, as the code has it.  For every catalog in which no category label,
    channel name or URL holds a code point that UTF-8 cannot encode (a lone
    surrogate), and more generally whenever the text to write can be
    encoded, the Serializer writes exactly the layout: the blocks of the
    categories that have channels, in catalog order, one blank line between
    neighbouring blocks and none before the first, each block being the
    header line "<category>,#genre#" and one "<name>,<url>" line per channel
    in the category's order, and nothing after the last channel's line.  A
    write that returns has written the layout; a write that raises leaves a
    beginning of it.  End to end, whenever a run writes the output file,
    the file is the layout of the final catalog, which has no entry for a
    category whose channels all fail the IPv6 predicate; the file is the one
    written without that category in the input.  The scenario of the
    specification gives the expected file. *)
Theorem serializer_layout :
  (forall c : Catalog,
      encodable_catalog c -> save_channels_to_file c = Written (layout c))
  /\ (forall c : Catalog,
         save_channels_to_file c = Written (layout c)
         <-> encodable_str (layout c) = true)
  /\ (forall (c : Catalog) (text : str),
         save_channels_to_file c = Written text -> text = layout c)
  /\ (forall (c : Catalog) (partial : str),
         save_channels_to_file c = EncodeError partial ->
         encodable_str (layout c) = false
         /\ exists rest, layout c = partial ++ rest)
  /\ (forall (file : option str) (out : str) (k : str),
         written (main file) = Some out ->
         all_fail k (snd (read_result_file file)) ->
         exists final : Catalog,
           final = remove_duplicates_keep_best
                     (filter_ipv6_channels (snd (read_result_file file)))
           /\ out = layout final
           /\ ~ In k (Dict.keys final)
           /\ final = remove_duplicates_keep_best
                        (filter_ipv6_channels
                           (without k (snd (read_result_file file)))))
  /\ written (main (Some scenario_input)) = Some scenario_output.
Proof.
  split; [intros c H; apply save_encodable, encodable_layout, H|].
  split; [intros c; split;
          [intros H; apply (save_written c _ H) | apply save_encodable]|].
  split; [intros c text H; apply (save_written c text H)|].
  split; [intros c partial H; pose proof (save_wrote c) as W;
          rewrite H in W; exact W|].
  split; [|vm_compute; reflexivity].
  intros file out k Hout Hfail; eexists; split; [reflexivity|].
  split; [|split].
  - apply main_written_layout, Hout.
  - apply pruned_category, Hfail.
  - unfold filter_ipv6_channels; rewrite filter_fold_without by exact Hfail.
    reflexivity.
Qed.

Lemma serializer_layout_witness :
  encodable_catalog mixed_catalog
  /\ save_channels_to_file mixed_catalog = Written (layout mixed_catalog)
  /\ written (main (Some scenario_input)) = Some scenario_output
  /\ all_fail (lit "Sports") (snd (read_result_file (Some scenario_input)))
  /\ exists final : Catalog,
       final = remove_duplicates_keep_best
                 (filter_ipv6_channels
                    (snd (read_result_file (Some scenario_input))))
       /\ scenario_output = layout final
       /\ ~ In (lit "Sports") (Dict.keys final)
       /\ final = remove_duplicates_keep_best
                    (filter_ipv6_channels
                       (without (lit "Sports")
                          (snd (read_result_file (Some scenario_input))))).
Proof.
  assert (He : encodable_catalog mixed_catalog).
  { repeat constructor. }
  assert (Hw : written (main (Some scenario_input)) = Some scenario_output).
  { vm_compute; reflexivity. }
  assert (Hf : all_fail (lit "Sports")
                 (snd (read_result_file (Some scenario_input)))).
  { intros l ch Hl Hch. vm_compute in Hl.
    destruct Hl as [Hl|[Hl|[]]]; [discriminate|].
    injection Hl as <-. destruct Hch as [<-|[]]. vm_compute; reflexivity. }
  split; [exact He|].
  split; [exact (proj1 serializer_layout mixed_catalog He)|].
  split; [exact Hw|]. split; [exact Hf|].
  exact (proj1 (proj2 (proj2 (proj2 (proj2 serializer_layout)))) _ _ _ Hw Hf).
Defined.

(** C5 as stated fails: in [lone_surrogate_catalog] the second channel's
    name is a lone surrogate, the write of its line raises
    [UnicodeEncodeError], and the file is left with the header line and the
    first channel's line only. *)
Lemma lone_surrogate_stops_the_writer :
  save_channels_to_file lone_surrogate_catalog
  = EncodeError (lit "News,#genre#" ++ [LF]
                 ++ lit "CCTV1,http://a/1" ++ [LF])
  /\ save_channels_to_file lone_surrogate_catalog
     <> Written (layout lone_surrogate_catalog).
Proof. split; [vm_compute; reflexivity | vm_compute; discriminate]. Qed.

(** ** Stripping, cutting, line splitting *)

Lemma lstrip_app (s r : str) :
  lstrip (s ++ r)
  = match lstrip s with [] => lstrip r | _ :: _ => lstrip s ++ r end.
Proof.
  induction s as [|c s IH]; simpl; [reflexivity|].
  destruct (is_space c); [exact IH | reflexivity].
Qed.

Lemma lstrip_all_space (w : str) : all_space w -> lstrip w = [].
Proof.
  induction 1 as [|c w Hc _ IH]; simpl; [reflexivity|].
  rewrite Hc; exact IH.
Qed.

Lemma lstrip_no_leading (s : str) : no_leading_space (lstrip s).
Proof.
  induction s as [|c s IH]; simpl; [intros ? ? [=]|].
  destruct (is_space c) eqn:E; [exact IH|].
  intros x t [= <- <-]; exact E.
Qed.

Lemma lstrip_id (s : str) : no_leading_space s -> lstrip s = s.
Proof.
  destruct s as [|c s]; simpl; [reflexivity|].
  intros H; rewrite (H c s eq_refl); reflexivity.
Qed.

Lemma lstrip_decomp (s : str) : exists w, all_space w /\ s = w ++ lstrip s.
Proof.
  induction s as [|c s (w & Hw & E)]; simpl.
  - exists []; split; [constructor | reflexivity].
  - destruct (is_space c) eqn:Hc.
    + exists (c :: w); split; [constructor; assumption|].
      simpl; f_equal; exact E.
    + exists []; split; [constructor | reflexivity].
Qed.

Lemma all_space_rev (w : str) : all_space w -> all_space (rev w).
Proof. apply Forall_rev. Qed.

Lemma no_trailing_rev (s : str) : no_trailing_space s -> no_leading_space (rev s).
Proof.
  intros H c t E; apply (H c (rev t)).
  rewrite <- (rev_involutive s), E; reflexivity.
Qed.

Lemma rstrip_id (s : str) : no_trailing_space s -> rstrip s = s.
Proof.
  intros H; unfold rstrip; rewrite lstrip_id by (apply no_trailing_rev, H).
  apply rev_involutive.
Qed.

Lemma rstrip_no_trailing (s : str) : no_trailing_space (rstrip s).
Proof.
  unfold rstrip; intros c t E.
  apply (lstrip_no_leading (rev s) c (rev t)).
  rewrite <- (rev_involutive (lstrip (rev s))), E, rev_app_distr; reflexivity.
Qed.

Lemma rstrip_decomp (s : str) : exists w, all_space w /\ s = rstrip s ++ w.
Proof.
  destruct (lstrip_decomp (rev s)) as (w & Hw & E).
  exists (rev w); split; [apply all_space_rev, Hw|].
  unfold rstrip; rewrite <- rev_app_distr, <- E, rev_involutive; reflexivity.
Qed.

Lemma rstrip_app_space (s w : str) : all_space w -> rstrip (s ++ w) = rstrip s.
Proof.
  intros H; unfold rstrip; rewrite rev_app_distr, lstrip_app.
  rewrite lstrip_all_space by (apply all_space_rev, H); reflexivity.
Qed.

Lemma strip_id (s : str) :
  no_leading_space s -> no_trailing_space s -> strip s = s.
Proof.
  intros H1 H2; unfold strip; rewrite lstrip_id by exact H1.
  apply rstrip_id, H2.
Qed.

Lemma strip_no_trailing (s : str) : no_trailing_space (strip s).
Proof. apply rstrip_no_trailing. Qed.

Lemma strip_no_leading (s : str) : no_leading_space (strip s).
Proof.
  unfold strip; intros c t E.
  destruct (rstrip_decomp (lstrip s)) as (w & _ & D).
  rewrite E in D; apply (lstrip_no_leading s c (t ++ w)); exact D.
Qed.

Lemma strip_pad (w1 s w2 : str) :
  all_space w1 -> all_space w2 -> strip (w1 ++ s ++ w2) = strip s.
Proof.
  intros H1 H2; unfold strip.
  rewrite lstrip_app, (lstrip_all_space w1 H1), lstrip_app.
  destruct (lstrip s) as [|c t].
  - rewrite (lstrip_all_space w2 H2); reflexivity.
  - apply rstrip_app_space, H2.
Qed.

Lemma strip_newline (s : str) : strip (s ++ [LF]) = strip s.
Proof.
  apply (strip_pad [] s [LF]); repeat constructor.
Qed.

Lemma endswith_iff (p s : str) :
  endswith p s = true <-> exists pre, s = pre ++ p.
Proof.
  unfold endswith; rewrite startswith_iff; split.
  - intros [r E]; exists (rev r).
    rewrite <- (rev_involutive s), E, rev_app_distr, rev_involutive.
    reflexivity.
  - intros [pre ->]; exists (rev pre); apply rev_app_distr.
Qed.

Lemma cut_first_Some (sep : char) (s a b : str) :
  cut_first sep s = Some (a, b) ->
  s = a ++ [sep] ++ b /\ contains_char sep a = false.
Proof.
  revert a; induction s as [|c s IH]; intros a; simpl; [discriminate|].
  destruct (N.eqb_spec c sep) as [->|Hne].
  - intros [= <- <-]; split; reflexivity.
  - destruct (cut_first sep s) as [[a' b']|]; [|discriminate].
    intros [= <- <-]; destruct (IH a' eq_refl) as [-> Hc]; split.
    + reflexivity.
    + simpl; rewrite Hc, orb_false_r; apply N.eqb_neq; congruence.
Qed.

Lemma cut_first_app (sep : char) (a b : str) :
  contains_char sep a = false -> cut_first sep (a ++ sep :: b) = Some (a, b).
Proof.
  induction a as [|c a IH]; simpl.
  - rewrite N.eqb_refl; reflexivity.
  - intros H; apply orb_false_iff in H as [Hc Ha].
    rewrite N.eqb_sym, Hc, IH by exact Ha; reflexivity.
Qed.

Lemma cut_first_None (sep : char) (s : str) :
  cut_first sep s = None <-> contains_char sep s = false.
Proof.
  induction s as [|c s IH]; simpl; [tauto|].
  rewrite (N.eqb_sym sep c); destruct (c =? sep); simpl.
  - split; discriminate.
  - rewrite <- IH; destruct (cut_first sep s) as [[? ?]|];
      split; congruence.
Qed.

(** ** read_result_file: one line *)

(** What a line can do to the parser's state. *)
Lemma parse_line_cases (st : Catalog * str) (raw : str) :
  (parse_line st raw = st
   /\ (strip raw = []
       \/ (endswith GENRE (strip raw) = false
           /\ contains_char COMMA (strip raw) = false)))
  \/ (strip raw <> [] /\ endswith GENRE (strip raw) = true
      /\ parse_line st raw = (fst st, remove_all GENRE (strip raw)))
  \/ (exists n u,
         strip raw <> [] /\ endswith GENRE (strip raw) = false
         /\ cut_first COMMA (strip raw) = Some (n, u)
         /\ parse_line st raw
            = (Dict.append (fst st) (snd st) (mkChannel n u), snd st)).
Proof.
  destruct st as [channels cur]; unfold parse_line.
  destruct (strip raw) as [|c t] eqn:S; [left; auto|].
  destruct (endswith GENRE (c :: t)) eqn:E.
  - right; left; split; [discriminate|]. split; reflexivity.
  - destruct (contains_char COMMA (c :: t)) eqn:C; [|left; auto].
    right; right; unfold split1.
    destruct (cut_first COMMA (c :: t)) as [[n u]|] eqn:K.
    + exists n, u; split; [discriminate|]. repeat split; reflexivity.
    + apply cut_first_None in K; congruence.
Qed.

(** C6. For every line that is neither blank nor a marker line once
    stripped: when it holds a comma the Parser cuts it at the first comma
    only, the part before being the name (which so holds no comma) and all
    the rest, further commas included, the URL, and appends the pair at the
    end of the current category's sequence, leaving the current category and
    every other category as they were; when it holds no comma the state is
    unchanged. *)
Theorem parse_line_channel (st : Catalog * str) (raw : str) :
  strip raw <> [] -> endswith GENRE (strip raw) = false ->
  (contains_char COMMA (strip raw) = true ->
   exists n u,
     strip raw = n ++ [COMMA] ++ u
     /\ contains_char COMMA n = false
     /\ parse_line st raw
        = (Dict.append (fst st) (snd st) (mkChannel n u), snd st)
     /\ chans_of (fst (parse_line st raw)) (snd st)
        = chans_of (fst st) (snd st) ++ [mkChannel n u]
     /\ (forall k, k <> snd st ->
           Dict.get (fst (parse_line st raw)) k = Dict.get (fst st) k))
  /\ (contains_char COMMA (strip raw) = false -> parse_line st raw = st).
Proof.
  intros Hne Hend.
  destruct (parse_line_cases st raw)
    as [[Hp [Hs|[_ Hc]]]|[(_ & He & _)|(n & u & _ & _ & Hk & Hp)]];
    try congruence.
  - split; [congruence | intros _; exact Hp].
  - destruct (cut_first_Some _ _ _ _ Hk) as [Hs Hn]; split.
    + intros _; exists n, u; rewrite Hp; cbn [fst snd].
      repeat split; try assumption.
      * unfold chans_of; rewrite get_append_same; reflexivity.
      * intros k Hk'; apply get_append_other; congruence.
    + intros Hc; apply cut_first_None in Hc; congruence.
Qed.

Lemma parse_line_channel_witness :
  strip (lit " CCTV1,http://a/b,c ") <> []
  /\ endswith GENRE (strip (lit " CCTV1,http://a/b,c ")) = false
  /\ contains_char COMMA (strip (lit " CCTV1,http://a/b,c ")) = true
  /\ exists n u,
       strip (lit " CCTV1,http://a/b,c ") = n ++ [COMMA] ++ u
       /\ contains_char COMMA n = false
       /\ parse_line ([], lit "News") (lit " CCTV1,http://a/b,c ")
          = (Dict.append [] (lit "News") (mkChannel n u), lit "News")
       /\ chans_of (fst (parse_line ([], lit "News")
                           (lit " CCTV1,http://a/b,c "))) (lit "News")
          = chans_of [] (lit "News") ++ [mkChannel n u]
       /\ (forall k, k <> lit "News" ->
             Dict.get (fst (parse_line ([], lit "News")
                              (lit " CCTV1,http://a/b,c "))) k
             = Dict.get [] k).
Proof.
  assert (H1 : strip (lit " CCTV1,http://a/b,c ") <> [])
    by (vm_compute; discriminate).
  assert (H2 : endswith GENRE (strip (lit " CCTV1,http://a/b,c ")) = false)
    by (vm_compute; reflexivity).
  assert (H3 : contains_char COMMA (strip (lit " CCTV1,http://a/b,c ")) = true)
    by (vm_compute; reflexivity).
  split; [exact H1|]. split; [exact H2|]. split; [exact H3|].
  exact (proj1 (parse_line_channel ([], lit "News") _ H1 H2) H3).
Defined.

(** ** read_result_file: the whole input *)

Lemma under_app (k : str) (t1 t2 : list (str * Channel)) :
  under k (t1 ++ t2) = under k t1 ++ under k t2.
Proof. unfold under; rewrite filter_app, map_app; reflexivity. Qed.

Lemma under_absent (k : str) (t : list (str * Channel)) :
  ~ In k (map fst t) -> under k t = [].
Proof.
  induction t as [|[k' x] t IH]; simpl; [reflexivity|]. intros H.
  unfold under; simpl. destruct (str_eqb k' k) eqn:E.
  - apply str_eqb_eq in E; tauto.
  - apply IH; tauto.
Qed.

Lemma under_same (k : str) (l : list Channel) : under k (map (pair k) l) = l.
Proof.
  induction l as [|x l IH]; [reflexivity|].
  unfold under in *; simpl; rewrite str_eqb_refl; simpl; f_equal; exact IH.
Qed.

Section MapKeys.
Context {V : Type}.
Implicit Types (f : str -> V) (ks : list str).

Lemma get_map_keys f ks k :
  Dict.get (map (fun k' => (k', f k')) ks) k
  = if existsb (str_eqb k) ks then Some (f k) else None.
Proof.
  induction ks as [|a ks IH]; simpl; [reflexivity|].
  rewrite (str_eqb_sym k a); destruct (str_eqb a k) eqn:E; simpl.
  - apply str_eqb_eq in E; subst; reflexivity.
  - exact IH.
Qed.

Lemma set_map_keys f ks k v :
  NoDup ks -> In k ks ->
  Dict.set (map (fun k' => (k', f k')) ks) k v
  = map (fun k' => (k', if str_eqb k' k then v else f k')) ks.
Proof.
  induction 1 as [|a ks Ha Hnd IH]; simpl; [tauto|].
  destruct (str_eqb a k) eqn:E.
  - apply str_eqb_eq in E; subst a; intros _; f_equal.
    apply map_ext_in; intros k' Hk'.
    destruct (str_eqb k' k) eqn:E'; [|reflexivity].
    apply str_eqb_eq in E'; subst; contradiction.
  - apply str_eqb_neq in E; intros [H|H]; [contradiction|].
    rewrite IH by exact H; reflexivity.
Qed.

End MapKeys.

Lemma grouped_snoc (t : list (str * Channel)) (k : str) (x : Channel) :
  Dict.append (grouped t) k x = grouped (t ++ [(k, x)]).
Proof.
  unfold Dict.append, grouped; rewrite get_map_keys, map_app; cbn [map fst].
  rewrite first_occurrences_snoc.
  assert (Hu : forall k', under k' (t ++ [(k, x)])
                          = under k' t ++ if str_eqb k k' then [x] else []).
  { intros k'; rewrite under_app; f_equal; unfold under; simpl.
    destruct (str_eqb k k'); reflexivity. }
  destruct (existsb (str_eqb k) (map fst t)) eqn:E.
  - assert (Hin : In k (first_occurrences (map fst t))).
    { apply In_first_occurrences, existsb_str_eqb, E. }
    pose proof Hin as Hex; apply existsb_str_eqb in Hex; rewrite Hex.
    rewrite set_map_keys, app_nil_r;
      [|apply NoDup_first_occurrences | exact Hin].
    apply map_ext; intros k'; rewrite Hu, (str_eqb_sym k k'); f_equal.
    destruct (str_eqb k' k) eqn:E'; [|rewrite app_nil_r; reflexivity].
    apply str_eqb_eq in E'; subst; reflexivity.
  - assert (Hout : ~ In k (map fst t)).
    { intros H; apply existsb_str_eqb in H; congruence. }
    assert (Hex : existsb (str_eqb k) (first_occurrences (map fst t)) = false).
    { destruct (existsb _ (first_occurrences _)) eqn:E'; [|reflexivity].
      exfalso; apply Hout, In_first_occurrences, existsb_str_eqb, E'. }
    rewrite Hex, set_absent
      by (rewrite get_map_keys, Hex; reflexivity).
    rewrite map_app; f_equal.
    + apply map_ext_in; intros k' Hk'; rewrite Hu; f_equal.
      destruct (str_eqb k k') eqn:E'; [|rewrite app_nil_r; reflexivity].
      apply str_eqb_eq in E'; subst k'.
      exfalso; apply Hout, In_first_occurrences, Hk'.
    + simpl; rewrite Hu, str_eqb_refl, (under_absent _ _ Hout); reflexivity.
Qed.

Lemma parse_line_tagged (t : list (str * Channel)) (cur raw : str) :
  exists t' cur',
    parse_line (grouped t, cur) raw = (grouped (t ++ t'), cur')
    /\ forall rest, tagged cur (raw :: rest) = t' ++ tagged cur' rest.
Proof.
  unfold parse_line; cbn [tagged].
  destruct (strip raw) as [|c line] eqn:S.
  - exists [], cur; rewrite app_nil_r; auto.
  - destruct (endswith GENRE (c :: line)).
    + exists [], (remove_all GENRE (c :: line)); rewrite app_nil_r; auto.
    + unfold split1.
      destruct (cut_first COMMA (c :: line)) as [[n u]|] eqn:K.
      * apply cut_first_Some in K as [K _].
        assert (C : contains_char COMMA (c :: line) = true).
        { rewrite K; unfold contains_char; rewrite existsb_app; simpl.
          rewrite orb_true_r; reflexivity. }
        rewrite C; exists [(cur, mkChannel n u)], cur.
        rewrite grouped_snoc; auto.
      * exists [], cur; rewrite app_nil_r; split; [|reflexivity].
        destruct (contains_char COMMA (c :: line)); reflexivity.
Qed.

Lemma parse_lines_tagged (ls : list str) (t : list (str * Channel))
      (cur : str) :
  fst (fold_left parse_line ls (grouped t, cur))
  = grouped (t ++ tagged cur ls).
Proof.
  revert t cur; induction ls as [|raw ls IH]; intros t cur.
  - simpl; rewrite app_nil_r; reflexivity.
  - destruct (parse_line_tagged t cur raw) as (t' & cur' & Hp & Ht).
    cbn [fold_left]; rewrite Hp, IH, Ht, app_assoc; reflexivity.
Qed.

Lemma parse_grouped (content : str) :
  parse content = grouped (tagged [] (file_lines content)).
Proof.
  unfold parse, read_result_file, parse_lines; cbn [snd].
  apply (parse_lines_tagged (file_lines content) [] []).
Qed.

Lemma keys_grouped (t : list (str * Channel)) :
  Dict.keys (grouped t) = first_occurrences (map fst t).
Proof.
  unfold Dict.keys, grouped; rewrite map_map; apply map_id.
Qed.

Lemma get_grouped (t : list (str * Channel)) (k : str) :
  chans_of (grouped t) k = under k t.
Proof.
  unfold chans_of, grouped; rewrite get_map_keys.
  destruct (existsb _ _) eqn:E; [reflexivity|].
  symmetry; apply under_absent; intros H.
  assert (existsb (str_eqb k) (first_occurrences (map fst t)) = true)
    by (apply existsb_str_eqb, In_first_occurrences, H).
  congruence.
Qed.

(** C10, as the code has it.  The Parser keeps one entry per category
    label, however many marker lines carry the label: the catalog is the
    channel lines grouped by the label in force, each group in overall input
    order, and the groups in the order in which the labels receive their
    first channel line (not in the order of the marker lines).  No key occurs
    twice. *)
Theorem parser_merges_blocks (content : str) :
  parse content = grouped (tagged [] (file_lines content))
  /\ NoDup (Dict.keys (parse content))
  /\ Dict.keys (parse content)
     = first_occurrences (map fst (tagged [] (file_lines content)))
  /\ forall k, chans_of (parse content) k
               = under k (tagged [] (file_lines content)).
Proof.
  rewrite parse_grouped, keys_grouped; repeat split.
  - apply NoDup_first_occurrences.
  - apply get_grouped.
Qed.

(** C10 as stated fails: in [late_block_input] the label "A" appears first,
    above "B", and its entry comes after the entry of "B", because its first
    block is empty. *)
Lemma merged_entry_not_at_first_marker :
  Dict.keys (parse late_block_input)
  <> keys_by_first_marker (parse late_block_input)
       (file_lines late_block_input).
Proof. vm_compute; discriminate. Qed.

Lemma In_grouped (t : list (str * Channel)) (k : str) (l : list Channel)
      (ch : Channel) :
  In (k, l) (grouped t) -> In ch l -> In (k, ch) t.
Proof.
  unfold grouped; rewrite in_map_iff; intros (k' & [= -> <-] & _).
  unfold under; rewrite in_map_iff; intros ([k' x] & Hx & Hin).
  apply filter_In in Hin as [Hin E]; simpl in *.
  apply str_eqb_eq in E; subst; exact Hin.
Qed.

Lemma In_tagged (ls : list str) (cur k : str) (ch : Channel) :
  In (k, ch) (tagged cur ls) ->
  exists raw, In raw ls
              /\ endswith GENRE (strip raw) = false
              /\ cut_first COMMA (strip raw) = Some (name ch, url ch).
Proof.
  revert cur; induction ls as [|raw ls IH]; intros cur; cbn [tagged]; [intros []|].
  assert (Hrest : forall cur', In (k, ch) (tagged cur' ls) ->
            exists raw0, In raw0 (raw :: ls)
                         /\ endswith GENRE (strip raw0) = false
                         /\ cut_first COMMA (strip raw0)
                            = Some (name ch, url ch)).
  { intros cur' H; destruct (IH _ H) as (r & Hr & H1 & H2).
    exists r; split; [right; exact Hr | auto]. }
  destruct (strip raw) as [|c line] eqn:S; [apply Hrest|].
  destruct (endswith GENRE (c :: line)) eqn:E; [apply Hrest|].
  destruct (cut_first COMMA (c :: line)) as [[n u]|] eqn:K; [|apply Hrest].
  intros [[= _ <-]|H]; [|apply Hrest with cur; exact H].
  exists raw; rewrite S; split; [left; reflexivity | auto].
Qed.

Lemma cut_strip_no_space (raw n u : str) :
  cut_first COMMA (strip raw) = Some (n, u) ->
  no_leading_space n /\ no_trailing_space u.
Proof.
  intros K; apply cut_first_Some in K as [K _]; split.
  - intros c t ->; apply (strip_no_leading raw c (t ++ [COMMA] ++ u)).
    rewrite K; reflexivity.
  - intros c t ->; apply (strip_no_trailing raw c (n ++ [COMMA] ++ t)).
    rewrite K, <- !app_assoc; reflexivity.
Qed.

Lemma strip_idem (s : str) : strip (strip s) = strip s.
Proof. apply strip_id; [apply strip_no_leading | apply strip_no_trailing]. Qed.

(** C9. The Parser strips every line before it looks at it: a line and the
    same line inside any leading and trailing whitespace act alike on the
    parser's state, as does the stripped line itself.  So in every catalog
    read from a file no channel name starts with whitespace and no channel
    URL ends with whitespace. *)
Theorem parser_strips_lines :
  (forall (st : Catalog * str) (w1 raw w2 : str),
      all_space w1 -> all_space w2 ->
      parse_line st (w1 ++ raw ++ w2) = parse_line st raw)
  /\ (forall (st : Catalog * str) (raw : str),
         parse_line st (strip raw) = parse_line st raw)
  /\ (forall (content k : str) (l : list Channel) (ch : Channel),
         In (k, l) (parse content) -> In ch l ->
         no_leading_space (name ch) /\ no_trailing_space (url ch)).
Proof.
  split; [|split].
  - intros st w1 raw w2 H1 H2; unfold parse_line.
    rewrite strip_pad by assumption; reflexivity.
  - intros st raw; unfold parse_line; rewrite strip_idem; reflexivity.
  - intros content k l ch Hl Hch; rewrite parse_grouped in Hl.
    pose proof (In_grouped _ _ _ _ Hl Hch) as Ht.
    apply In_tagged in Ht as (raw & _ & _ & K).
    apply (cut_strip_no_space raw), K.
Qed.

Lemma parser_strips_lines_witness :
  all_space (lit "  ") /\ all_space [9; 13; LF]
  /\ parse_line ([], []) (lit "  " ++ lit "CCTV1,http://a/1" ++ [9; 13; LF])
     = parse_line ([], []) (lit "CCTV1,http://a/1")
  /\ In (lit "News", [mkChannel (lit "CCTV1") (lit "http://192.168.1.1/live")])
        (parse ipv4_only_input)
  /\ In (mkChannel (lit "CCTV1") (lit "http://192.168.1.1/live"))
        [mkChannel (lit "CCTV1") (lit "http://192.168.1.1/live")]
  /\ no_leading_space (lit "CCTV1")
  /\ no_trailing_space (lit "http://192.168.1.1/live").
Proof.
  assert (H1 : all_space (lit "  ")) by (repeat constructor).
  assert (H2 : all_space [9; 13; LF]) by (repeat constructor).
  assert (H3 : In (lit "News",
                   [mkChannel (lit "CCTV1") (lit "http://192.168.1.1/live")])
                  (parse ipv4_only_input)) by (left; reflexivity).
  assert (H4 : In (mkChannel (lit "CCTV1") (lit "http://192.168.1.1/live"))
                  [mkChannel (lit "CCTV1") (lit "http://192.168.1.1/live")])
    by (left; reflexivity).
  split; [exact H1|]. split; [exact H2|].
  split; [exact (proj1 parser_strips_lines _ _ _ _ H1 H2)|].
  split; [exact H3|]. split; [exact H4|].
  exact (proj2 (proj2 parser_strips_lines) _ _ _ _ H3 H4).
Defined.

(** ** Marker lines *)

Lemma startswith_app_stop (p s r : str) (x : char) :
  ~ In x p -> startswith p (s ++ x :: r) = true -> startswith p s = true.
Proof.
  revert s; induction p as [|a p IH]; intros s Hx; [reflexivity|].
  destruct s as [|b s]; simpl.
  - rewrite andb_true_iff, N.eqb_eq; intros [-> _]; simpl in Hx; tauto.
  - rewrite !andb_true_iff; intros [E H]; split; [exact E|].
    apply IH; [simpl in Hx; tauto | exact H].
Qed.

Lemma startswith_refl (p : str) : startswith p p = true.
Proof. apply startswith_iff; exists []; symmetry; apply app_nil_r. Qed.

Lemma remove_all_skip (old s : str) :
  remove_all_from old (List.length s) s = [].
Proof. induction s as [|c s IH]; [reflexivity | exact IH]. Qed.

(** A marker that cannot overlap itself is removed from the end of a string
    that does not hold it, and nothing else is. *)
Lemma remove_all_suffix (sep : char) (g k : str) :
  ~ In sep g -> occursb (sep :: g) k = false ->
  remove_all (sep :: g) (k ++ sep :: g) = k.
Proof.
  intros Hsep; unfold remove_all; induction k as [|c k IH]; intros H.
  - cbn [app remove_all_from]; rewrite startswith_refl.
    apply remove_all_skip.
  - change (occursb (sep :: g) (c :: k))
      with (startswith (sep :: g) (c :: k) || occursb (sep :: g) k) in H.
    apply orb_false_iff in H as [Hs Ho].
    change ((c :: k) ++ sep :: g) with (c :: k ++ sep :: g).
    cbn [remove_all_from].
    destruct (startswith (sep :: g) (c :: k ++ sep :: g)) eqn:E.
    + exfalso; cbn [startswith] in E, Hs.
      apply andb_true_iff in E as [Ec E]; rewrite Ec in Hs.
      apply startswith_app_stop in E; [|exact Hsep].
      rewrite E in Hs; discriminate.
    + f_equal; apply IH, Ho.
Qed.

Lemma remove_all_marker_free (k : str) :
  occursb GENRE k = false -> remove_all GENRE (k ++ GENRE) = k.
Proof.
  apply (remove_all_suffix COMMA (lit "#genre#") k).
  vm_compute; intuition discriminate.
Qed.

Lemma label_of_marker (k : str) : label_of (k ++ GENRE) = k.
Proof.
  unfold label_of; rewrite length_app, Nat.add_sub.
  rewrite firstn_app, Nat.sub_diag, firstn_all; simpl.
  apply app_nil_r.
Qed.

(** Where the label holds no marker of its own, a marker line does what C2
    says: the label becomes the current category and no catalog entry
    changes. *)
Lemma parse_line_plain_marker (st : Catalog * str) (raw k : str) :
  strip raw = k ++ GENRE -> occursb GENRE k = false ->
  parse_line st raw = (fst st, label_of (strip raw)).
Proof.
  intros S Hk; destruct st as [channels cur]; unfold parse_line.
  rewrite S, label_of_marker.
  assert (E : endswith GENRE (k ++ GENRE) = true)
    by (apply endswith_iff; exists k; reflexivity).
  rewrite E, remove_all_marker_free by exact Hk.
  destruct (k ++ GENRE) eqn:D; [|reflexivity].
  apply app_eq_nil in D as [_ D]; discriminate.
Qed.

(** A marker line never touches the catalog, whatever its label. *)
Lemma marker_line_adds_no_channel (st : Catalog * str) (raw : str) :
  endswith GENRE (strip raw) = true -> fst (parse_line st raw) = fst st.
Proof.
  intros E; destruct st as [channels cur]; unfold parse_line.
  destruct (strip raw); [reflexivity|]. rewrite E; reflexivity.
Qed.

(** C2 at a marker line whose label holds the marker: the line ends with
    ",#genre#" and contributes no channel, but the category it starts is
    "NewsHD", every marker removed, where the claim asks for the line
    without its trailing marker only, "News,#genre#HD". *)
Theorem marker_inside_label_removed :
  endswith GENRE (strip nested_marker_line) = true
  /\ label_of (strip nested_marker_line) = lit "News,#genre#HD"
  /\ forall st : Catalog * str,
       parse_line st nested_marker_line = (fst st, lit "NewsHD")
       /\ snd (parse_line st nested_marker_line)
          <> label_of (strip nested_marker_line).
Proof.
  split; [vm_compute; reflexivity|]. split; [vm_compute; reflexivity|].
  intros [channels cur]; split; [reflexivity | vm_compute; discriminate].
Qed.

(** ** main: the early returns *)

Lemma filter_fold_all_fail (c acc : Catalog) :
  (forall k, all_fail k c) -> fold_left filter_category c acc = acc.
Proof.
  revert acc; induction c as [|[k l] c IH]; intros acc H; [reflexivity|].
  cbn [fold_left]; unfold filter_category at 2; cbn [fst snd].
  rewrite filter_channels_all_fail.
  - apply IH; intros k' l' ch Hl; apply (H k' l'); right; exact Hl.
  - intros ch; apply (H k l); left; reflexivity.
Qed.

Lemma filter_channels_keys_grow (k k' : str) (l : list Channel)
      (acc : Catalog) :
  In k' (Dict.keys acc) ->
  In k' (Dict.keys (fold_left (filter_channel k) l acc)).
Proof.
  revert acc; induction l as [|x l IH]; intros acc H; [exact H|].
  apply IH; unfold filter_channel.
  destruct (is_ipv6_url (url x)); [|exact H].
  rewrite keys_append; destruct (Dict.get acc k); [exact H|].
  apply in_or_app; left; exact H.
Qed.

Lemma filter_channels_keys_pass (k : str) (l : list Channel) (acc : Catalog)
      (ch : Channel) :
  In ch l -> is_ipv6_url (url ch) = true ->
  In k (Dict.keys (fold_left (filter_channel k) l acc)).
Proof.
  revert acc; induction l as [|x l IH]; intros acc; [intros []|].
  intros [->|Hin] Hp; cbn [fold_left]; [|apply IH; assumption].
  apply filter_channels_keys_grow; unfold filter_channel; rewrite Hp.
  rewrite keys_append; destruct (Dict.get acc k) eqn:G.
  - apply get_Some_In in G; apply (in_map fst) in G; exact G.
  - apply in_or_app; right; left; reflexivity.
Qed.

Lemma filter_fold_keys_grow (c acc : Catalog) (k : str) :
  In k (Dict.keys acc) -> In k (Dict.keys (fold_left filter_category c acc)).
Proof.
  revert acc; induction c as [|e c IH]; intros acc H; [exact H|].
  apply IH, filter_channels_keys_grow, H.
Qed.

Lemma filter_keys_pass (c : Catalog) (k : str) (l : list Channel)
      (ch : Channel) :
  In (k, l) c -> In ch l -> is_ipv6_url (url ch) = true ->
  In k (Dict.keys (filter_ipv6_channels c)).
Proof.
  unfold filter_ipv6_channels; generalize (@nil (str * list Channel)).
  induction c as [|e c IH]; intros acc; [intros []|].
  intros [->|Hin] Hch Hp; cbn [fold_left].
  - apply filter_fold_keys_grow.
    apply (filter_channels_keys_pass k l acc ch Hch Hp).
  - apply IH; assumption.
Qed.

(** ** Writing and reading back *)

Lemma one_line_app (a b : str) : one_line (a ++ b) = one_line a && one_line b.
Proof. apply forallb_app. Qed.

Lemma translate_line (l rest : str) :
  one_line l = true ->
  translate_newlines (l ++ LF :: rest) = l ++ LF :: translate_newlines rest.
Proof.
  induction l as [|c l IH]; intros H; [reflexivity|].
  cbn [one_line forallb] in H; apply andb_true_iff in H as [Hc Hl].
  apply negb_true_iff, orb_false_iff in Hc as [_ Hc].
  cbn [app translate_newlines]; rewrite Hc, IH by exact Hl; reflexivity.
Qed.

Lemma lines_from_line (l rest cur : str) :
  one_line l = true ->
  lines_from cur (l ++ LF :: rest) = (cur ++ l ++ [LF]) :: lines_from [] rest.
Proof.
  revert cur; induction l as [|c l IH]; intros cur H; [reflexivity|].
  cbn [one_line forallb] in H; apply andb_true_iff in H as [Hc Hl].
  apply negb_true_iff, orb_false_iff in Hc as [Hc _].
  cbn [app lines_from]; rewrite Hc, IH by exact Hl.
  rewrite <- app_assoc; reflexivity.
Qed.

Lemma file_lines_line (l rest : str) :
  one_line l = true ->
  file_lines (l ++ [LF] ++ rest) = (l ++ [LF]) :: file_lines rest.
Proof.
  intros H; unfold file_lines; cbn [app].
  rewrite translate_line, lines_from_line by exact H; reflexivity.
Qed.

Lemma last_char_cases (s : str) : s = [] \/ exists t c, s = t ++ [c].
Proof.
  destruct s as [|c s] using rev_ind; [left; reflexivity|].
  right; exists s, c; reflexivity.
Qed.

Lemma strip_header_line (k : str) :
  no_leading_space k -> strip (header_line k ++ [LF]) = header_line k.
Proof.
  intros Hk; rewrite strip_newline; apply strip_id; unfold header_line.
  - intros c t E; destruct k as [|a k].
    + injection E as <- _; reflexivity.
    + injection E as <- _; apply (Hk a k eq_refl).
  - intros c t E.
    change GENRE with (lit ",#genre" ++ [chr "#"]) in E.
    rewrite app_assoc in E; apply app_inj_tail in E as [_ <-]; reflexivity.
Qed.

Lemma strip_channel_line (ch : Channel) :
  no_leading_space (name ch) -> no_trailing_space (url ch) ->
  strip (channel_line ch ++ [LF]) = channel_line ch.
Proof.
  intros Hn Hu; rewrite strip_newline; apply strip_id; unfold channel_line.
  - intros c t E; destruct (name ch) as [|a n].
    + injection E as <- _; reflexivity.
    + injection E as <- _; apply (Hn a n eq_refl).
  - intros c t E; destruct (last_char_cases (url ch)) as [U|(u & x & U)];
      rewrite U in E.
    + rewrite app_nil_r in E.
      apply app_inj_tail in E as [_ <-]; reflexivity.
    + rewrite !app_assoc in E; apply app_inj_tail in E as [_ <-].
      apply (Hu x u U).
Qed.

Lemma tagged_blank_line (cur : str) (rest : list str) :
  tagged cur ([LF] :: rest) = tagged cur rest.
Proof. reflexivity. Qed.

Lemma tagged_header_line (cur k : str) (rest : list str) :
  plain_category k ->
  tagged cur ((header_line k ++ [LF]) :: rest) = tagged k rest.
Proof.
  intros (_ & Hk & Ho); cbn [tagged]; rewrite strip_header_line by exact Hk.
  unfold header_line.
  assert (E : endswith GENRE (k ++ GENRE) = true)
    by (apply endswith_iff; exists k; reflexivity).
  rewrite E, remove_all_marker_free by exact Ho.
  destruct (k ++ GENRE) eqn:D; [|reflexivity].
  apply app_eq_nil in D as [_ D]; discriminate.
Qed.

Lemma tagged_channel_line (cur : str) (ch : Channel) (rest : list str) :
  plain_channel ch ->
  tagged cur ((channel_line ch ++ [LF]) :: rest) = (cur, ch) :: tagged cur rest.
Proof.
  intros (_ & _ & Hc & Hn & Hu & He); cbn [tagged].
  rewrite strip_channel_line, He by assumption.
  unfold channel_line; cbn [app]; rewrite cut_first_app by exact Hc.
  destruct ch as [n u]; cbn [name url].
  destruct (n ++ COMMA :: u) eqn:D; [|reflexivity].
  apply app_eq_nil in D as [_ D]; discriminate.
Qed.

Lemma one_line_header (k : str) :
  one_line k = true -> one_line (header_line k) = true.
Proof.
  intros H; unfold header_line; rewrite one_line_app, H; reflexivity.
Qed.

Lemma one_line_channel (ch : Channel) :
  one_line (name ch) = true -> one_line (url ch) = true ->
  one_line (channel_line ch) = true.
Proof.
  intros H1 H2; unfold channel_line.
  rewrite !one_line_app, H1, H2; reflexivity.
Qed.

Lemma tagged_channel_lines (cur : str) (l : list Channel) (rest : str) :
  Forall plain_channel l ->
  tagged cur (file_lines
                (flat_map (fun ch => channel_line ch ++ [LF]) l ++ rest))
  = map (pair cur) l ++ tagged cur (file_lines rest).
Proof.
  induction 1 as [|ch l Hch _ IH]; [reflexivity|].
  cbn [flat_map map app]; rewrite <- !app_assoc.
  rewrite file_lines_line, tagged_channel_line, IH; try exact Hch;
    [reflexivity|].
  destruct Hch as (H1 & H2 & _); apply one_line_channel; assumption.
Qed.

Lemma tagged_block (cur : str) (e : str * list Channel) (rest : str) :
  plain_category (fst e) -> Forall plain_channel (snd e) ->
  tagged cur (file_lines (block e ++ rest))
  = map (pair (fst e)) (snd e) ++ tagged (fst e) (file_lines rest).
Proof.
  intros Hk Hl; unfold block; rewrite <- !app_assoc.
  rewrite file_lines_line by (apply one_line_header, Hk).
  rewrite tagged_header_line by exact Hk.
  apply tagged_channel_lines, Hl.
Qed.

Lemma tagged_blank_blocks (cur : str) (c : Catalog) :
  Forall (fun e => plain_category (fst e) /\ snd e <> []
                   /\ Forall plain_channel (snd e)) c ->
  tagged cur (file_lines (blank_before (map block c))) = flat c.
Proof.
  intros H; revert cur; induction H as [|e c (Hk & _ & Hl) _ IH]; intros cur;
    [reflexivity|].
  cbn [map blank_before flat_map flat].
  change (LF :: block e) with ([] ++ [LF] ++ block e).
  rewrite <- !app_assoc, file_lines_line by reflexivity.
  cbn [app]; rewrite tagged_blank_line, tagged_block by assumption.
  f_equal; apply IH.
Qed.

Lemma filter_has_channels (c : Catalog) :
  Forall (fun e => plain_category (fst e) /\ snd e <> []
                   /\ Forall plain_channel (snd e)) c ->
  filter has_channels c = c.
Proof.
  intros H; apply forallb_filter_id, forallb_forall; intros e He.
  rewrite Forall_forall in H; destruct (H e He) as (_ & Hne & _).
  unfold has_channels; destruct (snd e); [contradiction | reflexivity].
Qed.

Lemma tagged_layout (c : Catalog) :
  Forall (fun e => plain_category (fst e) /\ snd e <> []
                   /\ Forall plain_channel (snd e)) c ->
  tagged [] (file_lines (layout c)) = flat c.
Proof.
  intros H; unfold layout; rewrite filter_has_channels by exact H.
  destruct H as [|e c (Hk & _ & Hl) Hc]; [reflexivity|].
  cbn [map]; rewrite join_blank_cons, tagged_block by assumption.
  cbn [flat flat_map]; f_equal; apply tagged_blank_blocks, Hc.
Qed.

Lemma grouped_cons (k : str) (x : Channel) (t : list (str * Channel)) :
  grouped ((k, x) :: t)
  = (k, x :: under k t)
      :: filter (fun e => negb (str_eqb k (fst e))) (grouped t).
Proof.
  unfold grouped; cbn [map fst first_occurrences].
  f_equal.
  - unfold under; cbn [filter fst]; rewrite str_eqb_refl; reflexivity.
  - rewrite filter_map_swap; cbn [fst].
    apply map_ext_in; intros k' Hk'; f_equal.
    apply filter_In in Hk' as [_ Hk']; apply negb_true_iff in Hk'.
    unfold under; cbn [filter fst]; rewrite Hk'; reflexivity.
Qed.

Lemma filter_grouped_absent (k : str) (t : list (str * Channel)) :
  ~ In k (map fst t) ->
  filter (fun e => negb (str_eqb k (fst e))) (grouped t) = grouped t.
Proof.
  intros H; apply forallb_filter_id, forallb_forall; intros [k' l] He.
  cbn [fst]; apply negb_true_iff, str_eqb_neq; intros E; subst k'; apply H.
  apply (in_map fst) in He; fold (Dict.keys (grouped t)) in He.
  rewrite keys_grouped in He; apply In_first_occurrences, He.
Qed.

Lemma grouped_block (k : str) (l : list Channel) (t : list (str * Channel)) :
  l <> [] -> ~ In k (map fst t) ->
  grouped (map (pair k) l ++ t) = (k, l) :: grouped t.
Proof.
  intros Hl Hk; induction l as [|x l IH]; [contradiction|].
  cbn [map app]; rewrite grouped_cons, under_app, under_same.
  rewrite (under_absent _ _ Hk), app_nil_r; f_equal.
  destruct l as [|y l].
  - apply filter_grouped_absent, Hk.
  - rewrite IH by discriminate; cbn [filter fst].
    rewrite str_eqb_refl; apply filter_grouped_absent, Hk.
Qed.

Lemma keys_flat (c : Catalog) (k : str) :
  In k (map fst (flat c)) -> In k (Dict.keys c).
Proof.
  unfold flat; rewrite in_map_iff; intros ([k' x] & E & H).
  cbn [fst] in E; subst k'.
  apply in_flat_map in H as (e & He & Hx).
  apply in_map_iff in Hx as (y & [= E _] & _).
  rewrite <- E; apply (in_map fst), He.
Qed.

Lemma grouped_flat (c : Catalog) :
  NoDup (Dict.keys c) -> no_empty_category c -> grouped (flat c) = c.
Proof.
  intros Hnd Hne; induction Hne as [|[k l] c Hl _ IH]; [reflexivity|].
  inversion Hnd as [|? ? Hk Hc]; subst.
  cbn [flat flat_map fst snd]; rewrite grouped_block.
  - f_equal; apply IH, Hc.
  - exact Hl.
  - intros H; apply Hk, keys_flat, H.
Qed.

(** C1, as the code has it.  Writing a catalog and reading the text back
    gives the catalog again, categories and channels in the same order, for
    every catalog with pairwise distinct, non-empty categories in which no
    category, name or URL holds a line break ("\n" or "\r") or a code point
    that UTF-8 cannot encode (a lone surrogate), no category and no name
    starts with whitespace, no URL ends with whitespace, no name holds a
    comma, no category holds ",#genre#", and no channel's line
    "<name>,<url>" ends with ",#genre#": the write returns, and the text it
    wrote parses to the catalog. *)
Theorem write_then_read (c : Catalog) :
  plain_catalog c ->
  exists text,
    save_channels_to_file c = Written text /\ parse text = c.
Proof.
  intros (Hnd & H & He); exists (layout c); split.
  - apply save_encodable, encodable_layout, He.
  - rewrite parse_grouped, tagged_layout by exact H.
    apply grouped_flat; [exact Hnd|].
    eapply Forall_impl; [|exact H]. intros e (_ & Hne & _); exact Hne.
Qed.

Lemma no_leading_space_head (s : str) :
  match s with [] => True | c :: _ => is_space c = false end ->
  no_leading_space s.
Proof. intros H c t ->; exact H. Qed.

Lemma no_trailing_space_last (s : str) :
  match rev s with [] => True | c :: _ => is_space c = false end ->
  no_trailing_space s.
Proof.
  intros H c t ->; rewrite rev_app_distr in H; exact H.
Qed.

Lemma two_block_catalog_plain : plain_catalog two_block_catalog.
Proof.
  split; [repeat constructor; simpl; intuition discriminate|].
  split; [|repeat constructor].
  repeat constructor;
    try (apply no_leading_space_head; vm_compute; exact I || reflexivity);
    try (apply no_trailing_space_last; vm_compute; exact I || reflexivity);
    try discriminate.
Qed.

Lemma write_then_read_witness :
  plain_catalog two_block_catalog
  /\ exists text,
       save_channels_to_file two_block_catalog = Written text
       /\ parse text = two_block_catalog.
Proof.
  split; [exact two_block_catalog_plain|].
  exact (write_then_read two_block_catalog two_block_catalog_plain).
Defined.

(** C1 as stated fails: [comma_name_catalog] has no empty category and no
    line break anywhere, it is written, and it does not come back, because
    the Parser cuts the line "CCTV,1,http://a/1" at its first comma, inside
    the name. *)
Lemma comma_in_name_breaks_round_trip :
  ~ (forall c : Catalog,
        NoDup (Dict.keys c) -> no_empty_category c ->
        no_embedded_newline c -> reads_back c).
Proof.
  intros H.
  assert (E : reads_back comma_name_catalog).
  { apply H.
    - repeat constructor; simpl; tauto.
    - repeat constructor; discriminate.
    - repeat constructor. }
  destruct E as (text & Hw & Hp).
  vm_compute in Hw; injection Hw as <-.
  vm_compute in Hp; discriminate.
Qed.

(** * Further properties of the code *)

(** ** filter_ipv6_channels as a map over categories *)

Lemma get_app_absent {V : Type} (d1 d2 : Dict.dict V) (k : str) :
  ~ In k (Dict.keys d1) -> Dict.get (d1 ++ d2) k = Dict.get d2 k.
Proof.
  induction d1 as [|[k' v] d1 IH]; simpl; intros H; [reflexivity|].
  destruct (str_eqb k' k) eqn:E; [|apply IH; tauto].
  apply str_eqb_eq in E; subst; tauto.
Qed.

Lemma filter_channels_open (k : str) (l l0 : list Channel) (acc : Catalog) :
  ~ In k (Dict.keys acc) ->
  fold_left (filter_channel k) l (acc ++ [(k, l0)])
  = acc ++ [(k, l0 ++ filter passes l)].
Proof.
  intros Hk; revert l0; induction l as [|x l IH]; intros l0; cbn [fold_left filter].
  - rewrite app_nil_r; reflexivity.
  - unfold filter_channel at 2; fold (passes x); destruct (passes x).
    + unfold Dict.append; rewrite get_app_absent by exact Hk; simpl.
      rewrite str_eqb_refl, set_present by exact Hk.
      rewrite IH, <- app_assoc; reflexivity.
    + apply IH.
Qed.

Lemma filter_channels_new (k : str) (l : list Channel) (acc : Catalog) :
  ~ In k (Dict.keys acc) ->
  fold_left (filter_channel k) l acc
  = acc ++ filter has_channels [ipv6_only (k, l)].
Proof.
  intros Hk; induction l as [|x l IH]; cbn [fold_left].
  - simpl; rewrite app_nil_r; reflexivity.
  - unfold filter_channel at 2; fold (passes x).
    unfold ipv6_only in *; cbn [fst snd filter] in *.
    destruct (passes x) eqn:P.
    + unfold Dict.append.
      assert (G : Dict.get acc k = None) by (apply get_None_iff, Hk).
      rewrite G, set_absent by exact G.
      rewrite filter_channels_open by exact Hk; reflexivity.
    + exact IH.
Qed.

Lemma filter_fold_map (c acc : Catalog) :
  NoDup (Dict.keys acc ++ Dict.keys c) ->
  fold_left filter_category c acc
  = acc ++ filter has_channels (map ipv6_only c).
Proof.
  revert acc; induction c as [|[k l] c IH]; intros acc Hnd.
  - simpl; rewrite app_nil_r; reflexivity.
  - assert (Hk : ~ In k (Dict.keys acc)).
    { intros Hk; apply NoDup_remove_2 in Hnd; apply Hnd.
      apply in_or_app; auto. }
    cbn [fold_left]; unfold filter_category at 2; cbn [fst snd].
    rewrite filter_channels_new by exact Hk.
    rewrite IH.
    + rewrite <- app_assoc; f_equal.
      cbn [map]; rewrite <- filter_app; reflexivity.
    + unfold Dict.keys in *; cbn [map fst] in Hnd.
      unfold ipv6_only; cbn [filter has_channels fst snd].
      destruct (filter passes l); cbn [map fst].
      * rewrite app_nil_r; apply NoDup_remove_1 in Hnd; exact Hnd.
      * rewrite map_app, <- app_assoc; exact Hnd.
Qed.

Lemma filter_as_map (c : Catalog) :
  NoDup (Dict.keys c) ->
  filter_ipv6_channels c = filter has_channels (map ipv6_only c).
Proof.
  intros H; unfold filter_ipv6_channels; rewrite filter_fold_map; auto.
Qed.

Lemma In_filtered (c : Catalog) (k : str) (l : list Channel) :
  In (k, l) (filter has_channels (map ipv6_only c)) ->
  l <> [] /\ exists l0, In (k, l0) c /\ l = filter passes l0.
Proof.
  intros H; apply filter_In in H as [H Hne].
  apply in_map_iff in H as ([k0 l0] & [= <- <-] & H0); split.
  - unfold has_channels in Hne; cbn [snd] in Hne.
    destruct (filter passes l0); [discriminate Hne | discriminate].
  - exists l0; auto.
Qed.

Lemma NoDup_keys_filtered (c : Catalog) :
  NoDup (Dict.keys c) ->
  NoDup (Dict.keys (filter has_channels (map ipv6_only c))).
Proof.
  induction c as [|[k l] c IH]; intros H; [constructor|].
  inversion H as [|? ? Hk Hc]; subst; cbn [map filter].
  destruct (has_channels (ipv6_only (k, l))); [|apply IH, Hc].
  cbn [Dict.keys map fst]; constructor; [|apply IH, Hc].
  intros Hin; apply Hk; apply in_map_iff in Hin as ([k' l'] & E & He).
  cbn [fst] in E; subst k'.
  apply In_filtered in He as (_ & l0 & H0 & _).
  apply (in_map fst) in H0; exact H0.
Qed.

Lemma filter_passes_all (l : list Channel) :
  Forall (fun ch => passes ch = true) l -> filter passes l = l.
Proof.
  intros H; apply forallb_filter_id, forallb_forall, Forall_forall, H.
Qed.

Lemma filtered_fixed (d : Catalog) :
  Forall (fun e => snd e <> []
                   /\ Forall (fun ch => passes ch = true) (snd e)) d ->
  filter has_channels (map ipv6_only d) = d.
Proof.
  induction 1 as [|[k l] d [Hne Hall] _ IH]; [reflexivity|].
  cbn [snd] in Hne, Hall.
  cbn [map filter]; unfold ipv6_only at 1 2; cbn [fst snd].
  rewrite (filter_passes_all _ Hall); unfold has_channels; cbn [snd].
  destruct l; [contradiction|]. f_equal; exact IH.
Qed.

Lemma filtered_entries_pass (c : Catalog) :
  Forall (fun e => snd e <> []
                   /\ Forall (fun ch => passes ch = true) (snd e))
         (filter has_channels (map ipv6_only c)).
Proof.
  apply Forall_forall; intros [k l] He; cbn [snd].
  apply In_filtered in He as (Hne & l0 & _ & ->); split; [exact Hne|].
  apply Forall_forall; intros ch Hch; apply filter_In in Hch; tauto.
Qed.

(** X1. On a catalog with distinct categories [filter_ipv6_channels] keeps
    the categories in their order, keeps in each the channels that pass
    [is_ipv6_url] in their order, and drops a category left without
    channels; the result has distinct categories, none of them empty, and
    every channel in it passes. *)
Theorem filter_keeps_passing_in_order (c : Catalog) :
  NoDup (Dict.keys c) ->
  filter_ipv6_channels c = filter has_channels (map ipv6_only c)
  /\ NoDup (Dict.keys (filter_ipv6_channels c))
  /\ (forall k l, In (k, l) (filter_ipv6_channels c) ->
        l <> []
        /\ (forall ch, In ch l -> is_ipv6_url (url ch) = true)
        /\ exists l0, In (k, l0) c /\ l = filter passes l0).
Proof.
  intros H; rewrite filter_as_map by exact H.
  split; [reflexivity|]. split; [apply NoDup_keys_filtered, H|].
  intros k l Hin; destruct (In_filtered _ _ _ Hin) as (Hne & l0 & H0 & E).
  split; [exact Hne|]. split; [|exists l0; auto].
  intros ch Hch; rewrite E in Hch; apply filter_In in Hch; apply Hch.
Qed.

Lemma filter_keeps_passing_in_order_witness :
  NoDup (Dict.keys mixed_catalog)
  /\ filter_ipv6_channels mixed_catalog
     = filter has_channels (map ipv6_only mixed_catalog)
  /\ NoDup (Dict.keys (filter_ipv6_channels mixed_catalog))
  /\ (forall k l, In (k, l) (filter_ipv6_channels mixed_catalog) ->
        l <> []
        /\ (forall ch, In ch l -> is_ipv6_url (url ch) = true)
        /\ exists l0, In (k, l0) mixed_catalog /\ l = filter passes l0).
Proof.
  assert (H : NoDup (Dict.keys mixed_catalog)).
  { repeat constructor; simpl; intuition discriminate. }
  split; [exact H|].
  exact (filter_keeps_passing_in_order mixed_catalog H).
Defined.

(** X2. Filtering twice is filtering once, on a catalog with distinct
    categories. *)
Theorem filter_idempotent (c : Catalog) :
  NoDup (Dict.keys c) ->
  filter_ipv6_channels (filter_ipv6_channels c) = filter_ipv6_channels c.
Proof.
  intros H; rewrite (filter_as_map c) by exact H.
  rewrite filter_as_map by (apply NoDup_keys_filtered, H).
  apply filtered_fixed, filtered_entries_pass.
Qed.

Lemma filter_idempotent_witness :
  NoDup (Dict.keys mixed_catalog)
  /\ filter_ipv6_channels (filter_ipv6_channels mixed_catalog)
     = filter_ipv6_channels mixed_catalog.
Proof.
  assert (H : NoDup (Dict.keys mixed_catalog)).
  { repeat constructor; simpl; intuition discriminate. }
  split; [exact H | exact (filter_idempotent mixed_catalog H)].
Defined.

(** ** is_ipv6_url: what surrounds a match, and what a match needs *)

Lemma search_occurs (r : Re.regex) (u v : str) :
  Re.search r u = true -> occurs u v -> Re.search r v = true.
Proof.
  rewrite !search_iff; intros (pre & m & post & -> & H) (a & b & ->).
  exists (a ++ pre), m, (post ++ b); split; [|exact H].
  rewrite <- !app_assoc; reflexivity.
Qed.

Lemma any_pattern_iff (ps : list Re.regex) (u : str) :
  any_pattern ps u = true <-> exists r, In r ps /\ Re.search r u = true.
Proof.
  induction ps as [|p ps IH]; simpl.
  - split; [discriminate | intros (r & [] & _)].
  - destruct (Re.search p u) eqn:E.
    + split; [intros _; exists p; auto | reflexivity].
    + rewrite IH; split.
      * intros (r & Hr & Hs); exists r; auto.
      * intros (r & [<-|Hr] & Hs); [congruence | exists r; auto].
Qed.

(** X3. A URL that holds an IPv6-classified string is classified IPv6:
    whatever is put before or after a match, the classifier still says
    true. *)
Theorem is_ipv6_url_superstring (u v : str) :
  is_ipv6_url u = true -> occurs u v -> is_ipv6_url v = true.
Proof.
  unfold is_ipv6_url; rewrite !any_pattern_iff.
  intros (r & Hr & Hs) Ho; exists r; split; [exact Hr|].
  apply (search_occurs r u v Hs Ho).
Qed.

Lemma is_ipv6_url_superstring_witness :
  is_ipv6_url (lit "[::1]") = true
  /\ occurs (lit "[::1]") (lit "http://[::1]:8080/live")
  /\ is_ipv6_url (lit "http://[::1]:8080/live") = true.
Proof.
  assert (H1 : is_ipv6_url (lit "[::1]") = true) by (vm_compute; reflexivity).
  assert (H2 : occurs (lit "[::1]") (lit "http://[::1]:8080/live")).
  { exists (lit "http://"), (lit ":8080/live"); reflexivity. }
  split; [exact H1|]. split; [exact H2|].
  exact (is_ipv6_url_superstring _ _ H1 H2).
Defined.

Lemma contains_char_In (c : char) (s : str) :
  contains_char c s = true <-> In c s.
Proof.
  unfold contains_char; rewrite existsb_exists; split.
  - intros (x & Hx & E); apply N.eqb_eq in E; subst; exact Hx.
  - intros H; exists c; split; [exact H | apply N.eqb_refl].
Qed.

Lemma occurs_In (p u : str) (c : char) : occurs p u -> In c p -> In c u.
Proof.
  intros (pre & post & ->) H; apply in_or_app; right.
  apply in_or_app; left; exact H.
Qed.

(** X4. A URL with no colon and no opening square bracket is never
    classified IPv6: each of the five patterns needs one of the two. *)
Theorem is_ipv6_url_needs_colon_or_bracket (u : str) :
  contains_char (chr ":") u = false -> contains_char (chr "[") u = false ->
  is_ipv6_url u = false.
Proof.
  intros Hc Hb; destruct (is_ipv6_url u) eqn:E; [exfalso|reflexivity].
  assert (Hcolon : ~ In (chr ":") u).
  { intros H; apply contains_char_In in H; congruence. }
  assert (Hbr : ~ In (chr "[") u).
  { intros H; apply contains_char_In in H; congruence. }
  unfold is_ipv6_url in E; apply any_pattern_iff in E as (r & Hr & Hs).
  unfold ipv6_patterns in Hr.
  destruct Hr as [<-|[<-|[<-|[<-|[<-|[]]]]]];
    try (apply search_Lit in Hs; apply Hcolon;
         apply (occurs_In _ _ _ Hs); vm_compute; tauto).
  apply search_bracket in Hs as (pre & run & post & -> & _).
  apply Hbr, in_or_app; right; left; reflexivity.
Qed.

Lemma is_ipv6_url_needs_colon_or_bracket_witness :
  contains_char (chr ":") (lit "rtp//239.0.0.1/live") = false
  /\ contains_char (chr "[") (lit "rtp//239.0.0.1/live") = false
  /\ is_ipv6_url (lit "rtp//239.0.0.1/live") = false.
Proof.
  assert (H1 : contains_char (chr ":") (lit "rtp//239.0.0.1/live") = false)
    by (vm_compute; reflexivity).
  assert (H2 : contains_char (chr "[") (lit "rtp//239.0.0.1/live") = false)
    by (vm_compute; reflexivity).
  split; [exact H1|]. split; [exact H2|].
  exact (is_ipv6_url_needs_colon_or_bracket _ H1 H2).
Defined.

(** ** remove_duplicates_keep_best: it only removes *)

Lemma first_occurrences_length (l : list str) :
  (List.length (first_occurrences l) <= List.length l)%nat.
Proof.
  induction l as [|x l IH]; simpl; [apply Nat.le_refl|].
  apply le_n_S; eapply Nat.le_trans; [apply filter_length_le | exact IH].
Qed.

Lemma best_of_length (l : list Channel) :
  (List.length (best_of l) <= List.length l)%nat.
Proof.
  rewrite <- (length_map name (best_of l)), best_of_names.
  rewrite <- (length_map name l); apply first_occurrences_length.
Qed.

Lemma best_of_In (l : list Channel) (ch : Channel) :
  In ch (best_of l) -> In ch l.
Proof. intros H; apply wins_in_In, best_of_wins, H. Qed.

Lemma best_of_nonempty (l : list Channel) : l <> [] -> best_of l <> [].
Proof.
  intros Hl E; apply (f_equal (map name)) in E.
  rewrite best_of_names in E; destruct l as [|x l]; [contradiction|].
  discriminate E.
Qed.

Lemma total_channels_cons (e : str * list Channel) (c : Catalog) :
  total_channels (e :: c) = (List.length (snd e) + total_channels c)%nat.
Proof. reflexivity. Qed.

Lemma total_dedup_le (c : Catalog) :
  (total_channels (map dedup_entry c) <= total_channels c)%nat.
Proof.
  induction c as [|e c IH]; [apply Nat.le_refl|].
  cbn [map]; rewrite !total_channels_cons.
  apply Nat.add_le_mono; [apply best_of_length | exact IH].
Qed.

(** X5. Deduplication only removes channels.  On a catalog with distinct
    categories every category of the result is a category of the input with
    some of its channels: none is invented, a category that had channels
    keeps at least one, no category grows, and the total does not grow. *)
Theorem dedup_only_removes (c : Catalog) :
  NoDup (Dict.keys c) ->
  (total_channels (remove_duplicates_keep_best c) <= total_channels c)%nat
  /\ forall k l, In (k, l) (remove_duplicates_keep_best c) ->
       exists l0, In (k, l0) c
                  /\ (forall ch, In ch l -> In ch l0)
                  /\ (List.length l <= List.length l0)%nat
                  /\ (l0 <> [] -> l <> []).
Proof.
  intros H; rewrite dedup_map by exact H; split; [apply total_dedup_le|].
  intros k l Hin; apply in_map_iff in Hin as ([k0 l0] & [= <- <-] & H0).
  exists l0; cbn [snd]; split; [exact H0|]. split; [apply best_of_In|].
  split; [apply best_of_length | apply best_of_nonempty].
Qed.

Lemma dedup_only_removes_witness :
  NoDup (Dict.keys mixed_catalog)
  /\ (total_channels (remove_duplicates_keep_best mixed_catalog)
      <= total_channels mixed_catalog)%nat
  /\ forall k l, In (k, l) (remove_duplicates_keep_best mixed_catalog) ->
       exists l0, In (k, l0) mixed_catalog
                  /\ (forall ch, In ch l -> In ch l0)
                  /\ (List.length l <= List.length l0)%nat
                  /\ (l0 <> [] -> l <> []).
Proof.
  assert (H : NoDup (Dict.keys mixed_catalog)).
  { repeat constructor; simpl; intuition discriminate. }
  split; [exact H | exact (dedup_only_removes mixed_catalog H)].
Defined.

(** X6. Where no category holds two channels of one name, deduplication
    changes nothing. *)
Theorem dedup_unique_names_unchanged (c : Catalog) :
  NoDup (Dict.keys c) -> unique_names c ->
  remove_duplicates_keep_best c = c.
Proof.
  intros H Hu; rewrite dedup_map by exact H.
  rewrite <- (map_id c) at 2; apply map_ext_in; intros [k l] He.
  unfold unique_names in Hu; rewrite Forall_forall in Hu.
  unfold dedup_entry; cbn [fst snd]; f_equal.
  apply best_of_NoDup_id, (Hu _ He).
Qed.

Lemma dedup_unique_names_unchanged_witness :
  NoDup (Dict.keys two_block_catalog) /\ unique_names two_block_catalog
  /\ remove_duplicates_keep_best two_block_catalog = two_block_catalog.
Proof.
  assert (H : NoDup (Dict.keys two_block_catalog)).
  { repeat constructor; simpl; intuition discriminate. }
  assert (Hu : unique_names two_block_catalog).
  { repeat constructor; simpl; intuition discriminate. }
  split; [exact H|]. split; [exact Hu|].
  exact (dedup_unique_names_unchanged two_block_catalog H Hu).
Defined.

(** ** read_result_file: lines that do not count, inputs without markers,
    line endings *)

Lemma ineffective_line (st : Catalog * str) (raw : str) :
  effective raw = false -> parse_line st raw = st.
Proof.
  destruct st as [channels cur]; unfold effective, parse_line.
  destruct (strip raw) as [|c line]; [reflexivity|].
  intros H; apply orb_false_iff in H as [-> ->]; reflexivity.
Qed.

(** X7. Blank lines, and lines that are neither marker lines nor hold a
    comma, can be taken out of the input anywhere without changing what the
    Parser returns. *)
Theorem parser_skips_ineffective_lines (ls : list str) :
  parse_lines (filter effective ls) = parse_lines ls.
Proof.
  unfold parse_lines; generalize (@nil (str * list Channel), @nil char).
  induction ls as [|raw ls IH]; intros st; [reflexivity|].
  cbn [filter fold_left]; destruct (effective raw) eqn:E.
  - cbn [fold_left]; apply IH.
  - rewrite (ineffective_line st raw E); apply IH.
Qed.

Lemma tagged_no_marker (cur : str) (ls : list str) :
  (forall raw, In raw ls -> endswith GENRE (strip raw) = false) ->
  tagged cur ls = map (pair cur) (map snd (tagged cur ls)).
Proof.
  induction ls as [|raw ls IH]; intros H; [reflexivity|].
  assert (Hls : forall r, In r ls -> endswith GENRE (strip r) = false)
    by (intros r Hr; apply H; right; exact Hr).
  cbn [tagged]; rewrite (H raw) by (left; reflexivity).
  destruct (strip raw) as [|c line]; [apply IH, Hls|].
  destruct (cut_first COMMA (c :: line)) as [[n u]|]; [|apply IH, Hls].
  cbn [map snd]; f_equal; apply IH, Hls.
Qed.

(** X8. When the input has no marker line, every channel line is filed
    under the empty-string category: the catalog is empty when there is no
    channel line, and has that one entry, the channels in input order,
    otherwise. *)
Theorem no_marker_one_category (ls : list str) :
  (forall raw, In raw ls -> endswith GENRE (strip raw) = false) ->
  fst (parse_lines ls)
  = match map snd (tagged [] ls) with
    | [] => []
    | ch :: l => [([], ch :: l)]
    end.
Proof.
  intros H; unfold parse_lines.
  change (fst (fold_left parse_line ls (grouped [], [])) = 
          match map snd (tagged [] ls) with
          | [] => []
          | ch :: l => [([], ch :: l)]
          end).
  rewrite parse_lines_tagged; cbn [app].
  pose proof (tagged_no_marker [] ls H) as E.
  remember (map snd (tagged [] ls)) as chans eqn:Hc; clear Hc.
  rewrite E; destruct chans as [|ch l]; [reflexivity|].
  pose proof (grouped_block [] (ch :: l) []) as G.
  rewrite app_nil_r in G; apply G; [discriminate | intros []].
Qed.

Lemma no_marker_one_category_witness :
  (forall raw, In raw no_marker_lines -> endswith GENRE (strip raw) = false)
  /\ fst (parse_lines no_marker_lines)
     = match map snd (tagged [] no_marker_lines) with
       | [] => []
       | ch :: l => [([], ch :: l)]
       end.
Proof.
  assert (H : forall raw, In raw no_marker_lines ->
                          endswith GENRE (strip raw) = false).
  { intros raw [<-|[<-|[<-|[]]]]; vm_compute; reflexivity. }
  split; [exact H | exact (no_marker_one_category no_marker_lines H)].
Defined.

Lemma translate_no_cr (s : str) :
  contains_char CR s = false -> translate_newlines s = s.
Proof.
  induction s as [|c s IH]; [reflexivity|].
  intros H; cbn [contains_char existsb] in H.
  apply orb_false_iff in H as [Hc Hs]; rewrite N.eqb_sym in Hc.
  cbn [translate_newlines]; rewrite Hc, (IH Hs); reflexivity.
Qed.

Lemma translate_crlf (s : str) :
  contains_char CR s = false -> translate_newlines (crlf s) = s.
Proof.
  induction s as [|c s IH]; [reflexivity|].
  intros H; cbn [contains_char existsb] in H.
  apply orb_false_iff in H as [Hc Hs]; rewrite N.eqb_sym in Hc.
  unfold crlf in *; cbn [flat_map].
  destruct (N.eqb_spec c LF) as [->|Hne].
  - change (translate_newlines ([CR; LF] ++ flat_map
              (fun c => if c =? LF then [CR; LF] else [c]) s))
      with (LF :: translate_newlines
              (flat_map (fun c => if c =? LF then [CR; LF] else [c]) s)).
    rewrite (IH Hs); reflexivity.
  - cbn [app translate_newlines]; rewrite Hc, (IH Hs); reflexivity.
Qed.

(** X9. Line endings do not matter: a text without "\r" and the same text
    with every "\n" written as "\r\n" are read as the same lines, and the
    run on either does the same. *)
Theorem crlf_reads_the_same (s : str) :
  contains_char CR s = false ->
  file_lines (crlf s) = file_lines s
  /\ read_result_file (Some (crlf s)) = read_result_file (Some s)
  /\ main (Some (crlf s)) = main (Some s).
Proof.
  intros H.
  assert (E : file_lines (crlf s) = file_lines s).
  { unfold file_lines; rewrite translate_crlf, translate_no_cr by exact H.
    reflexivity. }
  assert (R : read_result_file (Some (crlf s)) = read_result_file (Some s)).
  { unfold read_result_file; rewrite E; reflexivity. }
  split; [exact E|]. split; [exact R|].
  unfold main; rewrite R; reflexivity.
Qed.

Lemma crlf_reads_the_same_witness :
  contains_char CR scenario_input = false
  /\ file_lines (crlf scenario_input) = file_lines scenario_input
  /\ read_result_file (Some (crlf scenario_input))
     = read_result_file (Some scenario_input)
  /\ main (Some (crlf scenario_input)) = main (Some scenario_input).
Proof.
  assert (H : contains_char CR scenario_input = false)
    by (vm_compute; reflexivity).
  split; [exact H | exact (crlf_reads_the_same scenario_input H)].
Defined.

(** ** read_result_file: what every catalog read from a file satisfies *)

Lemma translate_cons_other (c : char) (t : str) :
  (c =? CR) = false ->
  translate_newlines (c :: t) = c :: translate_newlines t.
Proof. intros H; cbn [translate_newlines]; rewrite H; reflexivity. Qed.

Lemma translate_cons_cr (t : str) :
  translate_newlines (CR :: t)
  = LF :: match t with
          | c2 :: t' => if c2 =? LF then translate_newlines t'
                        else translate_newlines t
          | [] => []
          end.
Proof. destruct t as [|c2 t']; [reflexivity|]. simpl; destruct (c2 =? LF); reflexivity. Qed.

Lemma translate_has_no_cr (s : str) :
  contains_char CR (translate_newlines s) = false
  /\ forall c, contains_char CR (translate_newlines (c :: s)) = false.
Proof.
  induction s as [|a s [IH1 IH2]]; split; try reflexivity.
  - intros c; destruct (c =? CR) eqn:Hc.
    + apply N.eqb_eq in Hc; subst; reflexivity.
    + rewrite translate_cons_other by exact Hc.
      cbn [contains_char existsb translate_newlines].
      rewrite N.eqb_sym, Hc; reflexivity.
  - apply IH2.
  - intros c; destruct (c =? CR) eqn:Hc.
    + apply N.eqb_eq in Hc; subst; rewrite translate_cons_cr.
      destruct (a =? LF); [exact IH1 | exact (IH2 a)].
    + rewrite translate_cons_other by exact Hc.
      change (contains_char CR (c :: translate_newlines (a :: s)))
        with ((CR =? c) || contains_char CR (translate_newlines (a :: s))).
      rewrite (IH2 a), N.eqb_sym, Hc; reflexivity.
Qed.

Lemma lines_from_bodies (s cur raw : str) :
  one_line cur = true -> contains_char CR s = false ->
  In raw (lines_from cur s) ->
  exists body, one_line body = true /\ (raw = body \/ raw = body ++ [LF]).
Proof.
  revert cur; induction s as [|c s IH]; intros cur Hcur Hs; cbn [lines_from].
  - destruct cur as [|x cur]; [intros []|].
    intros [<-|[]]; exists (x :: cur); auto.
  - cbn [contains_char existsb] in Hs; apply orb_false_iff in Hs as [Hc Hs].
    destruct (c =? LF) eqn:E.
    + intros [<-|H]; [exists cur; auto|].
      apply (IH [] eq_refl Hs H).
    + apply IH; [|exact Hs].
      rewrite one_line_app, Hcur; cbn [one_line forallb is_linebreak].
      unfold is_linebreak; rewrite E, N.eqb_sym, Hc; reflexivity.
Qed.

Lemma one_line_strip (s : str) : one_line s = true -> one_line (strip s) = true.
Proof.
  intros H; destruct (lstrip_decomp s) as (w1 & _ & E1).
  destruct (rstrip_decomp (lstrip s)) as (w2 & _ & E2).
  rewrite E1, E2, !one_line_app in H; fold (strip s) in H.
  apply andb_true_iff in H as [_ H]; apply andb_true_iff in H as [H _].
  exact H.
Qed.

Lemma file_lines_one_line (content raw : str) :
  In raw (file_lines content) -> one_line (strip raw) = true.
Proof.
  unfold file_lines; intros H.
  apply lines_from_bodies in H as (body & Hb & [->| ->]);
    [| |reflexivity|apply translate_has_no_cr].
  - apply one_line_strip, Hb.
  - rewrite strip_newline; apply one_line_strip, Hb.
Qed.

Lemma forallb_remove_all (p : char -> bool) (old : str) (skip : nat)
      (s : str) :
  forallb p s = true -> forallb p (remove_all_from old skip s) = true.
Proof.
  revert skip; induction s as [|c s IH]; intros skip H; [reflexivity|].
  cbn [forallb] in H; apply andb_true_iff in H as [Hc Hs].
  cbn [remove_all_from]; destruct skip; [|apply IH, Hs].
  destruct (startswith old (c :: s)); [apply IH, Hs|].
  cbn [forallb]; rewrite Hc; apply IH, Hs.
Qed.

Lemma tagged_labels (ls : list str) (cur k : str) :
  In k (map fst (tagged cur ls)) ->
  k = cur \/ exists raw, In raw ls /\ k = remove_all GENRE (strip raw).
Proof.
  revert cur; induction ls as [|raw ls IH]; intros cur; cbn [tagged];
    [intros []|].
  assert (Hrest : forall cur', In k (map fst (tagged cur' ls)) ->
            k = cur' \/
            exists r, In r (raw :: ls) /\ k = remove_all GENRE (strip r)).
  { intros cur' H; destruct (IH _ H) as [E|(r & Hr & E)]; [left; exact E|].
    right; exists r; split; [right; exact Hr | exact E]. }
  destruct (strip raw) as [|c line] eqn:S; [apply Hrest|].
  destruct (endswith GENRE (c :: line)).
  - intros H; destruct (Hrest _ H) as [E|E]; [|right; exact E].
    right; exists raw; rewrite S; split; [left; reflexivity | exact E].
  - destruct (cut_first COMMA (c :: line)) as [[n u]|]; [|apply Hrest].
    cbn [map fst]; intros [E|H]; [left; symmetry; exact E | apply Hrest, H].
Qed.

Lemma tagged_channel_plain (content k : str) (ch : Channel) :
  In (k, ch) (tagged [] (file_lines content)) -> plain_channel ch.
Proof.
  intros H; apply In_tagged in H as (raw & Hraw & He & Hc).
  pose proof (file_lines_one_line _ _ Hraw) as H1.
  destruct (cut_strip_no_space _ _ _ Hc) as [Hn Hu].
  destruct (cut_first_Some _ _ _ _ Hc) as [E Hcomma].
  assert (El : channel_line ch = strip raw) by (symmetry; exact E).
  rewrite E, !one_line_app in H1.
  apply andb_true_iff in H1 as [H1 H2]; apply andb_true_iff in H2 as [_ H2].
  unfold plain_channel; rewrite El; auto 10.
Qed.

Lemma grouped_nonempty (t : list (str * Channel)) (k : str)
      (l : list Channel) :
  In (k, l) (grouped t) -> l <> [].
Proof.
  unfold grouped; rewrite in_map_iff; intros (k' & [= -> <-] & Hk).
  apply In_first_occurrences, in_map_iff in Hk as ([k0 x] & E & Hx).
  cbn [fst] in E; subst k0; intros Hnil.
  assert (Hin : In x (under k t)).
  { unfold under; apply in_map_iff; exists (k, x); split; [reflexivity|].
    apply filter_In; split; [exact Hx | apply str_eqb_refl]. }
  rewrite Hnil in Hin; destruct Hin.
Qed.

Lemma parsed_entry (content k : str) (l : list Channel) :
  In (k, l) (parse content) ->
  one_line k = true /\ l <> [] /\ Forall plain_channel l.
Proof.
  rewrite parse_grouped; intros H; split; [|split].
  - apply (in_map fst) in H; fold (Dict.keys (grouped
      (tagged [] (file_lines content)))) in H.
    rewrite keys_grouped in H; cbn [fst] in H.
    apply (proj1 (In_first_occurrences _ _)) in H.
    apply tagged_labels in H as [->|(raw & Hraw & ->)]; [reflexivity|].
    apply forallb_remove_all, file_lines_one_line with content, Hraw.
  - apply (grouped_nonempty _ _ _ H).
  - apply Forall_forall; intros ch Hch.
    apply (tagged_channel_plain content k), (In_grouped _ _ _ _ H Hch).
Qed.

(** X10. In every catalog read from a file no category is empty, no label
    holds a line break, and every channel is one the Serializer's line gives
    back: name and URL hold no line break, the name holds no comma and does
    not start with whitespace, the URL does not end with whitespace, and the
    line "<name>,<url>" does not end with ",#genre#". *)
Theorem parsed_catalog_is_clean (content k : str) (l : list Channel) :
  In (k, l) (parse content) ->
  one_line k = true /\ l <> [] /\ Forall plain_channel l.
Proof. apply parsed_entry. Qed.

Lemma parsed_catalog_is_clean_witness :
  In (lit "News", [mkChannel (lit "CCTV1") (lit "http://192.168.1.1/live")])
     (parse ipv4_only_input)
  /\ one_line (lit "News") = true
  /\ [mkChannel (lit "CCTV1") (lit "http://192.168.1.1/live")] <> []
  /\ Forall plain_channel
       [mkChannel (lit "CCTV1") (lit "http://192.168.1.1/live")].
Proof.
  assert (H : In (lit "News",
                  [mkChannel (lit "CCTV1") (lit "http://192.168.1.1/live")])
                 (parse ipv4_only_input)) by (left; reflexivity).
  split; [exact H | exact (parsed_catalog_is_clean _ _ _ H)].
Defined.

(** ** main: what is written, and reading it again *)

Lemma read_keys_NoDup (file : option str) :
  NoDup (Dict.keys (snd (read_result_file file))).
Proof.
  destruct file as [content|]; [|constructor].
  change (snd (read_result_file (Some content))) with (parse content).
  rewrite parse_grouped, keys_grouped; apply NoDup_first_occurrences.
Qed.

Lemma read_entry (file : option str) (k : str) (l : list Channel) :
  In (k, l) (snd (read_result_file file)) ->
  one_line k = true /\ l <> [] /\ Forall plain_channel l.
Proof.
  destruct file as [content|]; [apply parsed_entry | intros []].
Qed.

Lemma final_as_map (file : option str) :
  final_catalog file
  = map dedup_entry
      (filter has_channels (map ipv6_only (snd (read_result_file file)))).
Proof.
  unfold final_catalog.
  rewrite filter_as_map by apply read_keys_NoDup.
  apply dedup_map, NoDup_keys_filtered, read_keys_NoDup.
Qed.

Lemma final_keys_NoDup (file : option str) :
  NoDup (Dict.keys (final_catalog file)).
Proof.
  rewrite final_as_map, keys_dedup_map.
  apply NoDup_keys_filtered, read_keys_NoDup.
Qed.

Lemma final_entry (file : option str) (k : str) (l : list Channel) :
  In (k, l) (final_catalog file) ->
  exists l0, In (k, l0) (snd (read_result_file file))
             /\ l = best_of (filter passes l0) /\ filter passes l0 <> [].
Proof.
  rewrite final_as_map, in_map_iff; intros ([k1 l1] & [= <- <-] & H1).
  apply In_filtered in H1 as (Hne & l0 & H0 & ->); exists l0; auto.
Qed.

Lemma final_settled (file : option str) : settled (final_catalog file).
Proof.
  unfold final_catalog, remove_duplicates_keep_best.
  apply dedup_fold_settled; split; constructor.
Qed.

Lemma final_clean (file : option str) (k : str) (l : list Channel) :
  In (k, l) (final_catalog file) ->
  one_line k = true /\ l <> []
  /\ Forall plain_channel l /\ Forall (fun ch => passes ch = true) l.
Proof.
  intros H; apply final_entry in H as (l0 & H0 & -> & Hne).
  destruct (read_entry _ _ _ H0) as (Hk & _ & Hp); rewrite Forall_forall in Hp.
  split; [exact Hk|]. split; [apply best_of_nonempty, Hne|].
  split; apply Forall_forall; intros ch Hch; apply best_of_In in Hch;
    apply filter_In in Hch as [Hin Hpass]; auto.
Qed.

Lemma main_writes (file : option str) (text : str) :
  filter_ipv6_channels (snd (read_result_file file)) <> [] ->
  save_channels_to_file (final_catalog file) = Written text ->
  written (main file) = Some text.
Proof.
  unfold main, final_catalog.
  destruct (read_result_file file) as [notes channels]; cbn [snd].
  destruct channels as [|e channels];
    [intros H; contradiction H; reflexivity|].
  destruct (filter_ipv6_channels (e :: channels));
    [intros H; contradiction H; reflexivity|].
  intros _ ->; reflexivity.
Qed.

Lemma written_filter_nonempty (file : option str) (out : str) :
  written (main file) = Some out ->
  filter_ipv6_channels (snd (read_result_file file)) <> [].
Proof.
  unfold main; destruct (read_result_file file) as [notes channels].
  cbn [snd]; destruct channels as [|e channels]; [discriminate|].
  destruct (filter_ipv6_channels (e :: channels)); discriminate.
Qed.

Lemma final_nonempty (file : option str) :
  filter_ipv6_channels (snd (read_result_file file)) <> [] ->
  final_catalog file <> [].
Proof.
  rewrite final_as_map, filter_as_map by apply read_keys_NoDup.
  destruct (filter has_channels _); [intros H; contradiction H; reflexivity|].
  discriminate.
Qed.

Lemma final_plain (file : option str) :
  (forall k, In k (Dict.keys (final_catalog file)) -> plain_label k) ->
  Forall (fun e => plain_category (fst e) /\ snd e <> []
                   /\ Forall plain_channel (snd e)) (final_catalog file).
Proof.
  intros Hk; apply Forall_forall; intros [k l] He; cbn [fst snd].
  destruct (final_clean _ _ _ He) as (H1 & H2 & H3 & _).
  destruct (Hk k) as [Ha Hb]; [apply (in_map fst) in He; exact He|].
  unfold plain_category; auto.
Qed.

Lemma final_no_empty (file : option str) :
  no_empty_category (final_catalog file).
Proof.
  apply Forall_forall; intros [k l] He; apply (final_clean _ _ _ He).
Qed.

Lemma final_reads_back (file : option str) :
  (forall k, In k (Dict.keys (final_catalog file)) -> plain_label k) ->
  parse (layout (final_catalog file)) = final_catalog file.
Proof.
  intros Hk; rewrite parse_grouped.
  rewrite tagged_layout by (apply final_plain, Hk).
  apply grouped_flat; [apply final_keys_NoDup | apply final_no_empty].
Qed.

(** X11. The file a run writes reads back as the catalog the run wrote,
    provided no label of that catalog starts with whitespace or holds
    ",#genre#". *)
Theorem written_file_reads_back (file : option str) (out : str) :
  written (main file) = Some out ->
  (forall k, In k (Dict.keys (final_catalog file)) -> plain_label k) ->
  parse out = final_catalog file.
Proof.
  intros Hw Hk; apply main_written_layout in Hw.
  fold (final_catalog file) in Hw; subst out; apply final_reads_back, Hk.
Qed.

Lemma scenario_labels_plain :
  forall k, In k (Dict.keys (final_catalog (Some scenario_input))) ->
            plain_label k.
Proof.
  intros k Hk; vm_compute in Hk; destruct Hk as [<-|[]]; split.
  - apply no_leading_space_head; vm_compute; reflexivity.
  - vm_compute; reflexivity.
Qed.

Lemma written_file_reads_back_witness :
  written (main (Some scenario_input)) = Some scenario_output
  /\ (forall k, In k (Dict.keys (final_catalog (Some scenario_input))) ->
                plain_label k)
  /\ parse scenario_output = final_catalog (Some scenario_input).
Proof.
  assert (H : written (main (Some scenario_input)) = Some scenario_output)
    by (vm_compute; reflexivity).
  split; [exact H|]. split; [exact scenario_labels_plain|].
  exact (written_file_reads_back _ _ H scenario_labels_plain).
Defined.

(** X12. Running the tool on a file it wrote writes the same file again,
    under the same proviso on the labels. *)
Theorem rerun_on_output_is_stable (file : option str) (out : str) :
  written (main file) = Some out ->
  (forall k, In k (Dict.keys (final_catalog file)) -> plain_label k) ->
  written (main (Some out)) = Some out.
Proof.
  intros Hw Hk.
  pose proof (final_nonempty file (written_filter_nonempty _ _ Hw)) as Hne.
  pose proof (main_written_layout _ _ Hw) as Hl.
  apply main_written in Hw.
  fold (final_catalog file) in Hw, Hl.
  assert (Hp : snd (read_result_file (Some out)) = final_catalog file).
  { rewrite Hl; apply final_reads_back, Hk. }
  assert (Hf : filter_ipv6_channels (final_catalog file) = final_catalog file).
  { rewrite filter_as_map by apply final_keys_NoDup.
    apply filtered_fixed, Forall_forall; intros [k l] He; cbn [snd].
    destruct (final_clean _ _ _ He) as (_ & H2 & _ & H4); auto. }
  apply main_writes; [rewrite Hp, Hf; exact Hne|].
  unfold final_catalog at 1; rewrite Hp, Hf.
  rewrite (settled_fixpoint _ (final_settled file)); exact Hw.
Qed.

Lemma rerun_on_output_is_stable_witness :
  written (main (Some scenario_input)) = Some scenario_output
  /\ (forall k, In k (Dict.keys (final_catalog (Some scenario_input))) ->
                plain_label k)
  /\ written (main (Some scenario_output)) = Some scenario_output.
Proof.
  assert (H : written (main (Some scenario_input)) = Some scenario_output)
    by (vm_compute; reflexivity).
  split; [exact H|]. split; [exact scenario_labels_plain|].
  exact (rerun_on_output_is_stable _ _ H scenario_labels_plain).
Defined.

(** X13. Whatever the input, in the catalog a run hands to the Serializer
    no category is empty, no category holds two channels of one name, and
    every channel is a channel of the same category of the catalog read that
    passes [is_ipv6_url]. *)
Theorem final_catalog_guarantee (file : option str) (k : str)
        (l : list Channel) :
  In (k, l) (final_catalog file) ->
  l <> [] /\ NoDup (map name l)
  /\ exists l0, In (k, l0) (snd (read_result_file file))
                /\ forall ch, In ch l ->
                     In ch l0 /\ is_ipv6_url (url ch) = true.
Proof.
  intros H; apply final_entry in H as (l0 & H0 & -> & Hne).
  split; [apply best_of_nonempty, Hne|].
  split; [rewrite best_of_names; apply NoDup_first_occurrences|].
  exists l0; split; [exact H0|]. intros ch Hch.
  apply best_of_In, filter_In in Hch; exact Hch.
Qed.

Lemma final_catalog_guarantee_witness :
  In (lit "News",
      [mkChannel (lit "CCTV1") (lit "http://[2409:8087:1001::5]/live")])
     (final_catalog (Some scenario_input))
  /\ [mkChannel (lit "CCTV1") (lit "http://[2409:8087:1001::5]/live")] <> []
  /\ NoDup (map name
       [mkChannel (lit "CCTV1") (lit "http://[2409:8087:1001::5]/live")])
  /\ exists l0, In (lit "News", l0)
                   (snd (read_result_file (Some scenario_input)))
                /\ forall ch,
                     In ch [mkChannel (lit "CCTV1")
                              (lit "http://[2409:8087:1001::5]/live")] ->
                     In ch l0 /\ is_ipv6_url (url ch) = true.
Proof.
  assert (H : In (lit "News",
                  [mkChannel (lit "CCTV1")
                     (lit "http://[2409:8087:1001::5]/live")])
                 (final_catalog (Some scenario_input))).
  { vm_compute; left; reflexivity. }
  split; [exact H | exact (final_catalog_guarantee _ _ _ H)].
Defined.

Lemma total_filtered_le (c : Catalog) :
  (total_channels (filter has_channels (map ipv6_only c))
   <= total_channels c)%nat.
Proof.
  induction c as [|e c IH]; [apply Nat.le_refl|].
  cbn [map filter]; rewrite total_channels_cons.
  destruct (has_channels (ipv6_only e)).
  - rewrite total_channels_cons; apply Nat.add_le_mono; [|exact IH].
    unfold ipv6_only; cbn [snd]; apply filter_length_le.
  - eapply Nat.le_trans; [exact IH | apply Nat.le_add_l].
Qed.

(** X14. The three channel counts a run prints can only fall: the catalog
    after deduplication has at most as many channels as the filtered one,
    which has at most as many as the catalog read. *)
Theorem channel_counts_only_fall (file : option str) :
  (total_channels (final_catalog file)
   <= total_channels (filter_ipv6_channels (snd (read_result_file file))))%nat
  /\ (total_channels (filter_ipv6_channels (snd (read_result_file file)))
      <= total_channels (snd (read_result_file file)))%nat.
Proof.
  split.
  - unfold final_catalog.
    rewrite dedup_map; [apply total_dedup_le|].
    rewrite filter_as_map by apply read_keys_NoDup.
    apply NoDup_keys_filtered, read_keys_NoDup.
  - rewrite filter_as_map by apply read_keys_NoDup.
    apply total_filtered_le.
Qed.

Lemma NoDup_keys_filter (p : str * list Channel -> bool) (c : Catalog) :
  NoDup (Dict.keys c) -> NoDup (Dict.keys (filter p c)).
Proof.
  induction c as [|e c IH]; intros H; [constructor|].
  inversion H as [|? ? Hk Hc]; subst; cbn [filter].
  destruct (p e); [|apply IH, Hc].
  cbn [Dict.keys map]; constructor; [|apply IH, Hc].
  intros Hin; apply Hk; apply in_map_iff in Hin as (e' & E & He').
  apply filter_In in He' as [He' _]; rewrite <- E; apply in_map, He'.
Qed.

Lemma filter_twice {A : Type} (p : A -> bool) (l : list A) :
  filter p (filter p l) = filter p l.
Proof.
  apply forallb_filter_id, forallb_forall; intros x Hx.
  apply filter_In in Hx; apply Hx.
Qed.

(** X15. Writing a catalog and reading the text back drops the empty
    categories and nothing else, for a catalog with distinct categories
    whose strings UTF-8 can encode and whose labels and channels are ones
    the Serializer's lines give back: the write returns, and the text it
    wrote parses to the catalog without its empty categories. *)
Theorem round_trip_drops_empty_categories (c : Catalog) :
  NoDup (Dict.keys c) ->
  Forall (fun e => plain_category (fst e) /\ Forall plain_channel (snd e)) c ->
  encodable_catalog c ->
  exists text,
    save_channels_to_file c = Written text
    /\ parse text = filter has_channels c.
Proof.
  intros Hnd Hc He; exists (layout c); split.
  { apply save_encodable, encodable_layout, He. }
  rewrite parse_grouped.
  assert (E : layout c = layout (filter has_channels c))
    by (unfold layout; rewrite filter_twice; reflexivity).
  rewrite E, tagged_layout.
  - apply grouped_flat; [apply NoDup_keys_filter, Hnd|].
    apply Forall_forall; intros e Hin; apply filter_In in Hin as [_ Hin].
    unfold has_channels in Hin; destruct (snd e); discriminate.
  - apply Forall_forall; intros e Hin; apply filter_In in Hin as [Hin Hch].
    rewrite Forall_forall in Hc; destruct (Hc e Hin) as [H1 H2].
    split; [exact H1|]. split; [|exact H2].
    unfold has_channels in Hch; destruct (snd e); discriminate.
Qed.

Lemma round_trip_drops_empty_categories_witness :
  NoDup (Dict.keys ((lit "Empty", []) :: two_block_catalog))
  /\ Forall (fun e => plain_category (fst e) /\ Forall plain_channel (snd e))
            ((lit "Empty", []) :: two_block_catalog)
  /\ encodable_catalog ((lit "Empty", []) :: two_block_catalog)
  /\ exists text,
       save_channels_to_file ((lit "Empty", []) :: two_block_catalog)
       = Written text
       /\ parse text
          = filter has_channels ((lit "Empty", []) :: two_block_catalog).
Proof.
  assert (H1 : NoDup (Dict.keys ((lit "Empty", []) :: two_block_catalog))).
  { repeat constructor; simpl; intuition discriminate. }
  assert (H2 : Forall (fun e => plain_category (fst e)
                                /\ Forall plain_channel (snd e))
                      ((lit "Empty", []) :: two_block_catalog)).
  { constructor.
    - split; [|constructor]. split; [reflexivity|]. split; [|reflexivity].
      apply no_leading_space_head; reflexivity.
    - destruct two_block_catalog_plain as (_ & H & _).
      eapply Forall_impl; [|exact H]. intros e (Ha & _ & Hb); auto. }
  assert (H3 : encodable_catalog ((lit "Empty", []) :: two_block_catalog)).
  { repeat constructor. }
  split; [exact H1|]. split; [exact H2|]. split; [exact H3|].
  exact (round_trip_drops_empty_categories _ H1 H2 H3).
Defined.

(** X16. A run never writes an empty file: what it writes starts with the
    header line of the first category of the catalog written. *)
Theorem written_file_starts_with_header (file : option str) (out : str) :
  written (main file) = Some out ->
  exists k l rest tail,
    final_catalog file = (k, l) :: rest
    /\ out = header_line k ++ [LF] ++ tail
    /\ out <> [].
Proof.
  intros Hw.
  pose proof (final_nonempty file (written_filter_nonempty _ _ Hw)) as Hne.
  apply main_written_layout in Hw; fold (final_catalog file) in Hw.
  pose proof (final_no_empty file) as He.
  destruct (final_catalog file) as [|[k l] rest] eqn:F; [contradiction|].
  inversion He as [|? ? Hl _]; subst; cbn [snd] in Hl.
  destruct l as [|ch l]; [contradiction|].
  assert (E : layout ((k, ch :: l) :: rest)
              = header_line k ++ [LF]
                ++ (flat_map (fun c => channel_line c ++ [LF]) (ch :: l)
                    ++ blank_before (blocks_of rest))).
  { unfold layout.
    cbn [filter has_channels snd map]; rewrite join_blank_cons.
    unfold block; cbn [fst snd]; rewrite <- !app_assoc; reflexivity. }
  exists k, (ch :: l), rest; eexists; split; [reflexivity|].
  split; [exact E|]. rewrite E; intros N.
  apply app_eq_nil in N as [N _]; unfold header_line in N.
  apply app_eq_nil in N as [_ N]; discriminate N.
Qed.

Lemma written_file_starts_with_header_witness :
  written (main (Some scenario_input)) = Some scenario_output
  /\ exists k l rest tail,
       final_catalog (Some scenario_input) = (k, l) :: rest
       /\ scenario_output = header_line k ++ [LF] ++ tail
       /\ scenario_output <> [].
Proof.
  assert (H : written (main (Some scenario_input)) = Some scenario_output)
    by (vm_compute; reflexivity).
  split; [exact H | exact (written_file_starts_with_header _ _ H)].
Defined.

Lemma plain_reads_back (c : Catalog) :
  plain_catalog c ->
  save_channels_to_file c = Written (layout c) /\ parse (layout c) = c.
Proof.
  intros (Hnd & H & He); split.
  - apply save_encodable, encodable_layout, He.
  - rewrite parse_grouped, tagged_layout by exact H.
    apply grouped_flat; [exact Hnd|].
    eapply Forall_impl; [|exact H]. intros e (_ & Hne & _); exact Hne.
Qed.

(** X17. Two catalogs that survive a write and a read, so that both
    writes return, and that leave the same file are the same catalog: on
    them the Serializer loses nothing. *)
Theorem serializer_injective (c1 c2 : Catalog) :
  plain_catalog c1 -> plain_catalog c2 ->
  save_channels_to_file c1 = save_channels_to_file c2 -> c1 = c2.
Proof.
  intros H1 H2 E.
  destruct (plain_reads_back c1 H1) as [W1 P1].
  destruct (plain_reads_back c2 H2) as [W2 P2].
  rewrite W1, W2 in E; injection E as E.
  rewrite <- P1, <- P2, E; reflexivity.
Qed.

Lemma serializer_injective_witness :
  plain_catalog two_block_catalog /\ plain_catalog two_block_catalog
  /\ save_channels_to_file two_block_catalog
     = save_channels_to_file two_block_catalog
  /\ two_block_catalog = two_block_catalog.
Proof.
  split; [exact two_block_catalog_plain|].
  split; [exact two_block_catalog_plain|]. split; [reflexivity|].
  exact (serializer_injective _ _ two_block_catalog_plain
           two_block_catalog_plain eq_refl).
Defined.

(** X18. The summary a run prints has one line for every category of the
    catalog written, in its order, with the number of its channels: the
    guard of the summary loop never skips a category. *)
Theorem summary_lists_every_category (file : option str) :
  summary (final_catalog file)
  = map (fun e => SummaryLine (fst e) (List.length (snd e)))
        (final_catalog file).
Proof.
  pose proof (final_no_empty file) as H; unfold summary.
  induction H as [|e c He _ IH]; [reflexivity|].
  cbn [flat_map map]; rewrite IH.
  destruct (snd e); [contradiction | reflexivity].
Qed.

(** ** main: a decoded file never makes the write raise *)

Lemma forallb_translate (p : char -> bool) (s : str) :
  p LF = true ->
  (forallb p s = true -> forallb p (translate_newlines s) = true)
  /\ forall c, forallb p (c :: s) = true ->
               forallb p (translate_newlines (c :: s)) = true.
Proof.
  intros Hlf; induction s as [|a s [IH1 IH2]]; split; try (intros _; reflexivity).
  - intros c H; destruct (c =? CR) eqn:Hc.
    + apply N.eqb_eq in Hc; subst; rewrite translate_cons_cr.
      cbn [forallb]; rewrite Hlf; reflexivity.
    + rewrite translate_cons_other by exact Hc; exact H.
  - apply IH2.
  - intros c H; cbn [forallb] in H; apply andb_true_iff in H as [Hpc H].
    destruct (c =? CR) eqn:Hc.
    + apply N.eqb_eq in Hc; subst; rewrite translate_cons_cr.
      cbn [forallb]; rewrite Hlf; cbn [andb].
      destruct (a =? LF); [|apply IH2, H].
      cbn [forallb] in H; apply andb_true_iff in H as [_ H]; apply IH1, H.
    + rewrite translate_cons_other by exact Hc.
      cbn [forallb]; rewrite Hpc; apply IH2, H.
Qed.

Lemma forallb_lines_from (p : char -> bool) (s cur raw : str) :
  forallb p cur = true -> forallb p s = true ->
  In raw (lines_from cur s) -> forallb p raw = true.
Proof.
  revert cur; induction s as [|c s IH]; intros cur Hcur Hs; cbn [lines_from].
  - destruct cur as [|x cur]; [intros []|]. intros [<-|[]]; exact Hcur.
  - cbn [forallb] in Hs; apply andb_true_iff in Hs as [Hc Hs].
    assert (Hcc : forallb p (cur ++ [c]) = true).
    { rewrite forallb_app, Hcur; cbn [forallb]; rewrite Hc; reflexivity. }
    destruct (c =? LF) eqn:E.
    + apply N.eqb_eq in E; subst c.
      intros [<-|H]; [exact Hcc | apply (IH [] eq_refl Hs H)].
    + apply IH; assumption.
Qed.

Lemma forallb_strip (p : char -> bool) (s : str) :
  forallb p s = true -> forallb p (strip s) = true.
Proof.
  intros H; destruct (lstrip_decomp s) as (w1 & _ & E1).
  destruct (rstrip_decomp (lstrip s)) as (w2 & _ & E2).
  rewrite E1, E2, !forallb_app in H; fold (strip s) in H.
  apply andb_true_iff in H as [_ H]; apply andb_true_iff in H as [H _].
  exact H.
Qed.

Lemma file_lines_encodable (content raw : str) :
  encodable_str content = true -> In raw (file_lines content) ->
  encodable_str (strip raw) = true.
Proof.
  intros Hc Hraw; apply forallb_strip.
  apply (forallb_lines_from encodable (translate_newlines content) [] raw);
    [reflexivity | | exact Hraw].
  apply (forallb_translate encodable content eq_refl), Hc.
Qed.

Lemma parsed_encodable (content : str) :
  encodable_str content = true -> encodable_catalog (parse content).
Proof.
  intros Hc; apply Forall_forall; intros [k l] He; cbn [fst snd].
  rewrite parse_grouped in He; split.
  - apply (in_map fst) in He.
    fold (Dict.keys (grouped (tagged [] (file_lines content)))) in He.
    rewrite keys_grouped in He; cbn [fst] in He.
    apply (proj1 (In_first_occurrences _ _)) in He.
    apply tagged_labels in He as [->|(raw & Hraw & ->)]; [reflexivity|].
    apply forallb_remove_all, (file_lines_encodable content raw Hc Hraw).
  - apply Forall_forall; intros ch Hch.
    pose proof (In_grouped _ _ _ _ He Hch) as Ht.
    apply In_tagged in Ht as (raw & Hraw & _ & K).
    pose proof (file_lines_encodable content raw Hc Hraw) as E.
    apply cut_first_Some in K as [K _]; unfold encodable_str in *.
    rewrite K, !forallb_app in E.
    apply andb_true_iff in E as [E1 E2]; apply andb_true_iff in E2 as [_ E2].
    auto.
Qed.

Lemma final_encodable (content : str) :
  encodable_str content = true ->
  encodable_catalog (final_catalog (Some content)).
Proof.
  intros Hc; pose proof (parsed_encodable content Hc) as Hp.
  unfold encodable_catalog in *; rewrite Forall_forall in Hp.
  apply Forall_forall; intros [k l] He; cbn [fst snd].
  apply final_entry in He as (l0 & H0 & -> & _).
  destruct (Hp _ H0) as [Hk Hl]; cbn [fst snd] in Hk, Hl.
  split; [exact Hk|]. rewrite Forall_forall in Hl.
  apply Forall_forall; intros ch Hch.
  apply best_of_In, filter_In in Hch as [Hch _]; apply Hl, Hch.
Qed.

Lemma main_failed (file : option str) (partial : str) :
  failed (main file) = Some partial ->
  save_channels_to_file (final_catalog file) = EncodeError partial.
Proof.
  unfold main, final_catalog.
  destruct (read_result_file file) as [notes channels]; cbn [snd].
  destruct channels as [|e channels]; [discriminate|].
  destruct (filter_ipv6_channels (e :: channels)) as [|e' f]; [discriminate|].
  destruct (save_channels_to_file (remove_duplicates_keep_best (e' :: f)));
    [discriminate|].
  cbn [failed]; intros [= <-]; reflexivity.
Qed.



(** ** main: when nothing is written, and when the file is *)

(** C7. A missing input file gives the empty catalog and a notice, and the
    run ends there with no file written.  A run ends early with no file
    written likewise when the catalog read is empty, and when no channel of
    it passes the IPv6 predicate.  In every other case, that is when some
    channel passes, the run calls the Serializer, and what the file holds is
    what the Serializer leaves; on decoded text, which holds no surrogate,
    that is the layout of the final catalog. *)
Theorem early_returns_write_nothing :
  read_result_file None = ([ResultFileNotFound], [])
  /\ main None
     = mkRun [ReadingResultFile; ResultFileNotFound; NoChannelsFound]
             None None
  /\ (forall file : option str,
         snd (read_result_file file) = [] ->
         main file
         = mkRun (ReadingResultFile :: fst (read_result_file file)
                    ++ [NoChannelsFound]) None None)
  /\ (forall file : option str,
         (forall k, all_fail k (snd (read_result_file file))) ->
         written (main file) = None /\ failed (main file) = None
         /\ exists log, console (main file) = log ++ [NoChannelsFound]
                        \/ console (main file) = log ++ [NoIPv6Found])
  /\ (forall (file : option str) (k : str) (l : list Channel) (ch : Channel),
         In (k, l) (snd (read_result_file file)) -> In ch l ->
         is_ipv6_url (url ch) = true ->
         match save_channels_to_file
                 (remove_duplicates_keep_best
                    (filter_ipv6_channels (snd (read_result_file file))))
         with
         | Written text =>
             written (main file) = Some text /\ failed (main file) = None
         | EncodeError partial =>
             written (main file) = None /\ failed (main file) = Some partial
         end)
  /\ (forall (content k : str) (l : list Channel) (ch : Channel),
         encodable_str content = true ->
         In (k, l) (snd (read_result_file (Some content))) -> In ch l ->
         is_ipv6_url (url ch) = true ->
         written (main (Some content))
         = Some (layout
                   (remove_duplicates_keep_best
                      (filter_ipv6_channels
                         (snd (read_result_file (Some content))))))
         /\ failed (main (Some content)) = None).
Proof.
  split; [reflexivity|]. split; [reflexivity|].
  split; [|split; [|split]].
  - intros file H; unfold main.
    destruct (read_result_file file) as [notes channels]; simpl in *.
    subst; reflexivity.
  - intros file H; unfold main.
    destruct (read_result_file file) as [notes channels]; cbn [snd] in H.
    destruct channels as [|e channels].
    { split; [reflexivity|]. split; [reflexivity|].
      eexists; left; reflexivity. }
    assert (E : filter_ipv6_channels (e :: channels) = [])
      by (apply filter_fold_all_fail, H).
    rewrite E; split; [reflexivity|]. split; [reflexivity|].
    eexists; right; reflexivity.
  - intros file k l ch Hl Hch Hp; unfold main.
    pose proof (filter_keys_pass _ _ _ _ Hl Hch Hp) as Hk.
    destruct (read_result_file file) as [notes channels]; cbn [snd] in *.
    destruct channels as [|e channels]; [destruct Hl|].
    destruct (filter_ipv6_channels (e :: channels)) as [|e' f];
      [destruct Hk|].
    destruct (save_channels_to_file (remove_duplicates_keep_best (e' :: f)));
      split; reflexivity.
  - intros content k l ch Hc Hl Hch Hp.
    pose proof (filter_keys_pass _ _ _ _ Hl Hch Hp) as Hk.
    pose proof (save_encodable _
                  (encodable_layout _ (final_encodable content Hc))) as Hw.
    fold (final_catalog (Some content)); split.
    + apply main_writes; [|exact Hw].
      intros E; rewrite E in Hk; destruct Hk.
    + destruct (failed (main (Some content))) as [p|] eqn:F; [|reflexivity].
      apply main_failed in F; congruence.
Qed.

Lemma early_returns_write_nothing_witness :
  (forall k, all_fail k (snd (read_result_file (Some ipv4_only_input))))
  /\ written (main (Some ipv4_only_input)) = None
  /\ failed (main (Some ipv4_only_input)) = None
  /\ exists log,
       console (main (Some ipv4_only_input)) = log ++ [NoChannelsFound]
       \/ console (main (Some ipv4_only_input)) = log ++ [NoIPv6Found].
Proof.
  assert (H : forall k,
             all_fail k (snd (read_result_file (Some ipv4_only_input)))).
  { intros k l ch Hl Hch; vm_compute in Hl.
    destruct Hl as [Hl|[]]; injection Hl as _ <-.
    destruct Hch as [<-|[]]; vm_compute; reflexivity. }
  split; [exact H|].
  exact (proj1 (proj2 (proj2 (proj2 early_returns_write_nothing))) _ H).
Defined.
